(** * MyPromise: a shallow embedding of [src/MyPromise/index.js]

    The JavaScript class [MyPromise] is modelled over an explicit store:
    every instance lives in a heap cell addressed by its allocation index,
    the micro task queue of the host is a FIFO list of pending callbacks,
    and the closures the source builds (bound [_resolve]/[_reject], the
    executors of [then], [all], [race], ...) are the constructors of one
    inductive type of function values.  Callbacks supplied by client code
    are scripts: trees of calls into function values, so that a client
    executor can call the [resolve]/[reject] it is handed, attach
    continuations, build further promises, return or throw. *)

From stdpp Require Import base numbers list strings.

Set Warnings "-register-all".

Open Scope string_scope.
Open Scope list_scope.
Open Scope nat_scope.

(** ** Values *)

(** [const PENDING = 'pending'; FULFILLED = 'fulfilled'; REJECTED = 'rejected'] *)
Inductive status : Type := PENDING | FULFILLED | REJECTED.

Definition status_eqb (a b : status) : bool :=
  match a, b with
  | PENDING, PENDING | FULFILLED, FULFILLED | REJECTED, REJECTED => true
  | _, _ => false
  end.

#[global] Instance status_eq_dec : EqDecision status.
Proof. solve_decision. Defined.

Definition status_string (s : status) : string :=
  match s with
  | PENDING => "pending"
  | FULFILLED => "fulfilled"
  | REJECTED => "rejected"
  end.

(** JavaScript values.  Plain objects and functions carry their own
    properties; a [MyPromise] instance is a reference into the heap. *)
Inductive val : Type :=
| VUndefined
| VNull
| VBool (b : bool)
| VNum (n : Z)
| VStr (s : string)
| VObject (props : list (string * val))
| VArray (elems : list val)
| VPromise (p : nat)
| VFun (f : func) (props : list (string * val))

(** Function values: the public entry points of the class, the closures the
    source creates, and client functions. *)
with func : Type :=
| FNew                 (* new MyPromise(executor) *)
| FThen                (* MyPromise.prototype.then *)
| FCatch               (* MyPromise.prototype.catch *)
| FFinally             (* MyPromise.prototype.finally *)
| FStaticResolve       (* MyPromise.resolve *)
| FStaticReject        (* MyPromise.reject *)
| FAll                 (* MyPromise.all *)
| FAllSettled          (* MyPromise.allSettled *)
| FRace                (* MyPromise.race *)
| FResolve (p : nat)   (* this._resolve.bind(this) *)
| FReject (p : nat)    (* this._reject.bind(this) *)
| FThenExec (self onfulfilled onrejected : val)
                       (* the executor arrow function inside then *)
| FFinallyOk (onfinally : val)    (* value => { onfinally(); return value } *)
| FFinallyErr (onfinally : val)   (* reason => { onfinally(); throw reason } *)
| FResolveExec (value : val)      (* the executor inside MyPromise.resolve *)
| FRejectExec (reason : val)      (* the executor inside MyPromise.reject *)
| FAllExec (scope : nat) (promiseQueue : list val)
                       (* the executor inside MyPromise.all *)
| FAllOk (scope index length : nat) (resolve : val)
                       (* value => { fulfilledLength++; values[index] = value; ... } *)
| FAllErr (reject : val)          (* reason => { reject(reason) } *)
| FSettledOk                      (* value => ({ status: FULFILLED, value }) *)
| FSettledErr                     (* reason => ({ status: REJECTED, reason }) *)
| FRaceExec (promiseQueue : list val)
                       (* the executor inside MyPromise.race *)
| FHost (n : nat) (env : list val).
                       (* client function number n, closed over env *)

Definition TypeError (msg : string) : val :=
  VObject [("name", VStr "TypeError"); ("message", VStr msg)].

(** [typeof v] *)
Definition typeof (v : val) : string :=
  match v with
  | VUndefined => "undefined"
  | VNull => "object"
  | VBool _ => "boolean"
  | VNum _ => "number"
  | VStr _ => "string"
  | VObject _ | VArray _ | VPromise _ => "object"
  | VFun _ _ => "function"
  end.

(** [Boolean(v)] *)
Definition Boolean (v : val) : bool :=
  match v with
  | VUndefined | VNull => false
  | VBool b => b
  | VNum n => negb (n =? 0)%Z
  | VStr s => negb (String.eqb s "")
  | VObject _ | VArray _ | VPromise _ | VFun _ _ => true
  end.

Fixpoint assoc (k : string) (props : list (string * val)) : val :=
  match props with
  | [] => VUndefined
  | (k', v) :: rest => if String.eqb k k' then v else assoc k rest
  end.

(** [v.k] for a truthy [v].  A [MyPromise] instance exposes the three public
    methods of its prototype; the underscore-prefixed members are internal
    to the class and not part of the modelled surface. *)
Definition get_prop (v : val) (k : string) : val :=
  match v with
  | VObject props => assoc k props
  | VFun _ props => assoc k props
  | VPromise _ =>
      if String.eqb k "then" then VFun FThen []
      else if String.eqb k "catch" then VFun FCatch []
      else if String.eqb k "finally" then VFun FFinally []
      else VUndefined
  | _ => VUndefined
  end.

(** [function isPromise(object)] *)
Definition isPromise (object : val) : bool :=
  Boolean object
  && String.eqb (typeof object) "object"
  && String.eqb (typeof (get_prop object "then")) "function".

Definition arg (i : nat) (args : list val) : val :=
  default VUndefined (args !! i).

(** [values[index] = value] on a JavaScript array: writing past the end
    extends the array, the skipped slots read as [undefined]. *)
Definition array_set (index : nat) (value : val) (values : list val) : list val :=
  if decide (index < length values) then <[index := value]> values
  else values ++ replicate (index - length values) VUndefined ++ [value].

(** ** The store *)

(** An entry of [_handlerQueue]: [{ executor, state, resolve, reject }]. *)
Record handler : Type := Handler {
  executor : val;
  state : status;
  resolve : val;
  reject : val
}.

Record promise : Type := Promise {
  _state : status;
  _result : val;
  _handlerQueue : list handler
}.

(** The callback [_executeCurrentHandler] hands to the scheduler closes over
    [this] and the destructured handler. *)
Record task : Type := Task {
  owner : nat;
  job : handler
}.

(** The local variables [fulfilledLength] and [values] of one call of
    [MyPromise.all], shared by the closures that call creates. *)
Record all_scope : Type := AllScope {
  fulfilledLength : nat;
  values : list val
}.

Record world : Type := World {
  heap : list promise;
  microQueue : list task;
  scopes : list all_scope
}.

Definition empty_world : world := World [] [] [].

Definition fresh_promise : promise := Promise PENDING VUndefined [].

Definition get_promise (p : nat) (w : world) : promise :=
  default fresh_promise (heap w !! p).

Definition state_of (p : nat) (w : world) : status := _state (get_promise p w).
Definition result_of (p : nat) (w : world) : val := _result (get_promise p w).
Definition queue_of (p : nat) (w : world) : list handler :=
  _handlerQueue (get_promise p w).

Definition set_heap (h : list promise) (w : world) : world :=
  World h (microQueue w) (scopes w).
Definition set_micro (q : list task) (w : world) : world :=
  World (heap w) q (scopes w).
Definition set_scopes (s : list all_scope) (w : world) : world :=
  World (heap w) (microQueue w) s.

Definition update_promise (p : nat) (f : promise → promise) (w : world) : world :=
  set_heap (alter f p (heap w)) w.

(** The three field initialisations at the head of the constructor. *)
Definition alloc (w : world) : world :=
  set_heap (heap w ++ [fresh_promise]) w.

(** [function executeMicroQueueTask(callback)]: whichever primitive the host
    offers, the callback is appended to a FIFO queue that runs after the
    current call stack has unwound. *)
Definition executeMicroQueueTask (callback : task) (w : world) : world :=
  set_micro (microQueue w ++ [callback]) w.

(** [_executeCurrentHandler(handler)] *)
Definition _executeCurrentHandler (p : nat) (h : handler) (w : world) : world :=
  executeMicroQueueTask (Task p h) w.

(** [this._handlerQueue.shift()] *)
Definition shift (p : nat) (w : world) : world :=
  update_promise p (λ pr, Promise (_state pr) (_result pr) (tail (_handlerQueue pr))) w.

(** The [while (this._handlerQueue.length)] loop; one iteration per element
    of the queue, each reading the current head. *)
Fixpoint handlers_loop (n : nat) (p : nat) (w : world) : world :=
  match n with
  | 0 => w
  | S n' =>
      match queue_of p w with
      | [] => w
      | h :: _ => handlers_loop n' p (shift p (_executeCurrentHandler p h w))
      end
  end.

(** [_executeHandlers()] *)
Definition _executeHandlers (p : nat) (w : world) : world :=
  if status_eqb (state_of p w) PENDING then w
  else handlers_loop (length (queue_of p w)) p w.

(** [_changeState(state, result)] *)
Definition _changeState (p : nat) (st : status) (result : val) (w : world) : world :=
  if negb (status_eqb (state_of p w) PENDING) then w
  else
    _executeHandlers p
      (update_promise p (λ pr, Promise st result (_handlerQueue pr)) w).

(** [_resolve(value)] *)
Definition _resolve (p : nat) (value : val) (w : world) : world :=
  _changeState p FULFILLED value w.

(** [_reject(reason)] *)
Definition _reject (p : nat) (reason : val) (w : world) : world :=
  _changeState p REJECTED reason w.

(** [_pushHandler(executor, state, resolve, reject)] *)
Definition _pushHandler (p : nat) (ex : val) (st : status) (res rej : val)
    (w : world) : world :=
  update_promise p
    (λ pr, Promise (_state pr) (_result pr)
             (_handlerQueue pr ++ [Handler ex st res rej])) w.

Definition get_scope (c : nat) (w : world) : all_scope :=
  default (AllScope 0 []) (scopes w !! c).

Definition alloc_scope (w : world) : world :=
  set_scopes (scopes w ++ [AllScope 0 []]) w.

(** [fulfilledLength++; values[index] = value;] *)
Definition record_value (c index : nat) (value : val) (w : world) : world :=
  set_scopes
    (alter (λ s, AllScope (S (fulfilledLength s)) (array_set index value (values s)))
       c (scopes w)) w.

(** ** Calls *)

(** How an invocation ends: it returns a value or throws one. *)
Inductive completion : Type :=
| Normal (v : val)
| Throw (v : val).

(** The body of a client function: it returns, throws, or calls a function
    value and continues with whatever that call produced (so [try]/[catch]
    around a call is expressible). *)
Inductive script : Type :=
| Return (v : val)
| Raise (v : val)
| Invoke (f this : val) (args : list val) (k : completion → script).

(** A computation over the store; [None] is a run that needs more fuel. *)
Definition M : Type := world → option (completion * world).

Definition ret (v : val) : M := λ w, Some (Normal v, w).
Definition throw (v : val) : M := λ w, Some (Throw v, w).
Definition effect (f : world → world) : M := λ w, Some (Normal VUndefined, f w).

(** Sequencing: an exception skips the rest. *)
Definition bind (m : M) (k : val → M) : M :=
  λ w, match m w with
       | None => None
       | Some (Throw e, w') => Some (Throw e, w')
       | Some (Normal v, w') => k v w'
       end.

(** [try { m } catch (error) { h error }] *)
Definition try_catch (m : M) (h : val → M) : M :=
  λ w, match m w with
       | None => None
       | Some (Throw e, w') => h e w'
       | Some (Normal v, w') => Some (Normal v, w')
       end.

Notation "'let*' x ':=' m 'in' k" := (bind m (λ x, k))
  (at level 10, x name, m at level 100, k at level 200, only parsing).

Definition is_function (v : val) : bool := String.eqb (typeof v) "function".

Definition callT : Type := val → val → list val → M.

Section Semantics.

(** The client code: function number [n], closed over [env], called with
    receiver [this] and arguments [args]. *)
Variable host : nat → list val → val → list val → script.

Section Body.

(** The handle for nested calls; [call] below ties the knot. *)
Variable rec : callT.

Fixpoint run_script (s : script) : M :=
  match s with
  | Return v => ret v
  | Raise v => throw v
  | Invoke f this args k =>
      λ w, match rec f this args w with
           | None => None
           | Some (c, w') => run_script (k c) w'
           end
  end.

(** [receiver.name(args)] *)
Definition call_method (receiver : val) (name : string) (args : list val) : M :=
  rec (get_prop receiver name) receiver args.

(** [constructor(executor)] *)
Definition MyPromise_new (executor : val) : M :=
  λ w,
    let p := length (heap w) in
    match rec executor VUndefined [VFun (FResolve p) []; VFun (FReject p) []]
            (alloc w) with
    | None => None
    | Some (Normal _, w') => Some (Normal (VPromise p), w')
    | Some (Throw error, w') => Some (Normal (VPromise p), _reject p error w')
    end.

(** [then(onfulfilled, onrejected)] *)
Definition MyPromise_then (this onfulfilled onrejected : val) : M :=
  MyPromise_new (VFun (FThenExec this onfulfilled onrejected) []).

(** The executor of [then]: two [_pushHandler] and [_executeHandlers]. *)
Definition then_executor (this onfulfilled onrejected res rej : val) : M :=
  match this with
  | VPromise p =>
      effect (λ w,
        _executeHandlers p
          (_pushHandler p onrejected REJECTED res rej
             (_pushHandler p onfulfilled FULFILLED res rej w)))
  | _ => throw (TypeError "this._pushHandler is not a function")
  end.

(** [catch(onrejected)] *)
Definition MyPromise_catch (this onrejected : val) : M :=
  call_method this "then" [VUndefined; onrejected].

(** [finally(onfinally)] *)
Definition MyPromise_finally (this onfinally : val) : M :=
  call_method this "then"
    [VFun (FFinallyOk onfinally) []; VFun (FFinallyErr onfinally) []].

(** [typeof onfinally === 'function' && onfinally()] *)
Definition run_onfinally (onfinally : val) : M :=
  if is_function onfinally then rec onfinally VUndefined [] else ret VUndefined.

(** [static resolve(value)] and its executor *)
Definition MyPromise_resolve (value : val) : M :=
  MyPromise_new (VFun (FResolveExec value) []).

Definition resolve_executor (value res rej : val) : M :=
  let* _ := (if isPromise value then call_method value "then" [res; rej]
             else rec res VUndefined [value]) in
  ret VUndefined.

(** [static reject(reason)] *)
Definition MyPromise_reject (reason : val) : M :=
  MyPromise_new (VFun (FRejectExec reason) []).

(** [static all(promiseQueue)] *)
Definition MyPromise_all (promiseQueue : list val) : M :=
  λ w,
    let c := length (scopes w) in
    MyPromise_new (VFun (FAllExec c promiseQueue) []) (alloc_scope w).

(** The [forEach] of [all], from position [index] on. *)
Fixpoint all_forEach (c len : nat) (res rej : val) (items : list val)
    (index : nat) : M :=
  match items with
  | [] => ret VUndefined
  | item :: rest =>
      let* pr := MyPromise_resolve item in
      let* _ := call_method pr "then"
                  [VFun (FAllOk c index len res) []; VFun (FAllErr rej) []] in
      all_forEach c len res rej rest (S index)
  end.

Definition all_executor (c : nat) (promiseQueue : list val) (res rej : val) : M :=
  let len := length promiseQueue in
  if (len =? 0)%nat then let* _ := rec res VUndefined [] in ret VUndefined
  else all_forEach c len res rej promiseQueue 0.

Definition all_onfulfilled (c index len : nat) (res value : val) : M :=
  λ w,
    let w' := record_value c index value w in
    if (fulfilledLength (get_scope c w') =? len)%nat
    then (let* _ := rec res VUndefined [VArray (values (get_scope c w'))] in
          ret VUndefined) w'
    else ret VUndefined w'.

(** The [map] of [allSettled]; the result is [newQueue]. *)
Fixpoint allSettled_map (items : list val) : world → option (completion * world + list val * world) :=
  match items with
  | [] => λ w, Some (inr ([], w))
  | item :: rest =>
      λ w,
        match (let* pr := MyPromise_resolve item in
               call_method pr "then" [VFun FSettledOk []; VFun FSettledErr []]) w with
        | None => None
        | Some (Throw e, w') => Some (inl (Throw e, w'))
        | Some (Normal q, w') =>
            match allSettled_map rest w' with
            | Some (inr (qs, w'')) => Some (inr (q :: qs, w''))
            | other => other
            end
        end
  end.

(** [static allSettled(promiseQueue)] *)
Definition MyPromise_allSettled (promiseQueue : list val) : M :=
  λ w,
    match allSettled_map promiseQueue w with
    | None => None
    | Some (inl r) => Some r
    | Some (inr (newQueue, w')) => MyPromise_all newQueue w'
    end.

(** [static race(promiseQueue)] and the [forEach] of its executor *)
Definition MyPromise_race (promiseQueue : list val) : M :=
  MyPromise_new (VFun (FRaceExec promiseQueue) []).

Fixpoint race_forEach (res rej : val) (items : list val) : M :=
  match items with
  | [] => ret VUndefined
  | item :: rest =>
      let* pr := MyPromise_resolve item in
      let* _ := call_method pr "then" [res; rej] in
      race_forEach res rej rest
  end.

(** One call of a function value.  Array parameters are documented as
    arrays ([@param {Array} promiseQueue]); any other argument is
    answered with a [TypeError]. *)
Definition call_body (f this : val) (args : list val) : M :=
  let a0 := arg 0 args in
  let a1 := arg 1 args in
  match f with
  | VFun fn _ =>
      match fn with
      | FNew => MyPromise_new a0
      | FThen => MyPromise_then this a0 a1
      | FCatch => MyPromise_catch this a0
      | FFinally => MyPromise_finally this a0
      | FStaticResolve => MyPromise_resolve a0
      | FStaticReject => MyPromise_reject a0
      | FAll =>
          match a0 with
          | VArray q => MyPromise_all q
          | _ => throw (TypeError "promiseQueue is not an array")
          end
      | FAllSettled =>
          match a0 with
          | VArray q => MyPromise_allSettled q
          | _ => throw (TypeError "promiseQueue is not an array")
          end
      | FRace =>
          match a0 with
          | VArray q => MyPromise_race q
          | _ => throw (TypeError "promiseQueue is not an array")
          end
      | FResolve p => effect (_resolve p a0)
      | FReject p => effect (_reject p a0)
      | FThenExec self onfulfilled onrejected =>
          then_executor self onfulfilled onrejected a0 a1
      | FFinallyOk onfinally => let* _ := run_onfinally onfinally in ret a0
      | FFinallyErr onfinally => let* _ := run_onfinally onfinally in throw a0
      | FResolveExec value => resolve_executor value a0 a1
      | FRejectExec reason => let* _ := rec a1 VUndefined [reason] in ret VUndefined
      | FAllExec c q => all_executor c q a0 a1
      | FAllOk c index len res => all_onfulfilled c index len res a0
      | FAllErr rej => let* _ := rec rej VUndefined [a0] in ret VUndefined
      | FSettledOk =>
          ret (VObject [("status", VStr (status_string FULFILLED)); ("value", a0)])
      | FSettledErr =>
          ret (VObject [("status", VStr (status_string REJECTED)); ("reason", a0)])
      | FRaceExec q => race_forEach a0 a1 q
      | FHost n env => run_script (host n env this args)
      end
  | _ => throw (TypeError "not a function")
  end.

(** The callback queued by [_executeCurrentHandler], run by the
    scheduler.  [this._state] and [this._result] are read when it runs. *)
Definition handler_task (t : task) : M :=
  λ w,
    let p := owner t in
    let h := job t in
    if negb (status_eqb (state h) (state_of p w)) then ret VUndefined w
    else if negb (is_function (executor h)) then
      (let* _ := (if status_eqb (state_of p w) FULFILLED
                  then rec (resolve h) VUndefined [result_of p w]
                  else rec (reject h) VUndefined [result_of p w]) in
       ret VUndefined) w
    else
      try_catch
        (let* result := rec (executor h) VUndefined [result_of p w] in
         let* _ := (if isPromise result
                    then call_method result "then" [resolve h; reject h]
                    else rec (resolve h) VUndefined [result]) in
         ret VUndefined)
        (λ error, let* _ := rec (reject h) VUndefined [error] in ret VUndefined) w.

End Body.

(** Calls nest to a depth bounded by the fuel. *)
Fixpoint call (fuel : nat) (f this : val) (args : list val) : M :=
  match fuel with
  | 0 => λ _, None
  | S n => call_body (call n) f this args
  end.

(** The scheduler takes the oldest queued callback and runs it; there is
    nothing to run on an empty queue. *)
Definition run_next (fuel : nat) (w : world) : option (completion * world) :=
  match microQueue w with
  | [] => None
  | t :: rest => handler_task (call fuel) t (set_micro rest w)
  end.

(** Up to [n] scheduler turns, stopping early on an empty queue. *)
Fixpoint drain (fuel n : nat) (w : world) : option world :=
  match n with
  | 0 => Some w
  | S n' =>
      match microQueue w with
      | [] => Some w
      | _ =>
          match run_next fuel w with
          | None => None
          | Some (_, w') => drain fuel n' w'
          end
      end
  end.

(** A piece of top-level client code, followed by the scheduler running
    until the queue is empty or [n] callbacks have run. *)
Definition run_program (fuel n : nat) (s : script) : option (completion * world) :=
  match run_script (call fuel) s empty_world with
  | None => None
  | Some (c, w) =>
      match drain fuel n w with
      | None => None
      | Some w' => Some (c, w')
      end
  end.

End Semantics.

(** ** Resolvers inside values *)

(** The values a function value is closed over. *)
Definition func_children (f : func) : list val :=
  match f with
  | FThenExec self onfulfilled onrejected => [self; onfulfilled; onrejected]
  | FFinallyOk v | FFinallyErr v | FResolveExec v | FRejectExec v | FAllErr v => [v]
  | FAllExec _ q | FRaceExec q => q
  | FAllOk _ _ _ res => [res]
  | FHost _ env => env
  | _ => []
  end.

(** The values directly reachable from a value. *)
Definition children (v : val) : list val :=
  match v with
  | VObject props => props.*2
  | VArray elems => elems
  | VFun f props => func_children f ++ props.*2
  | _ => []
  end.

Definition is_resolver (v : val) : bool :=
  match v with
  | VFun (FResolve _) _ | VFun (FReject _) _ => true
  | _ => false
  end.

(** [mentions d v]: the bound [_resolve] or [_reject] of promise [d] occurs
    somewhere inside [v]. *)
Fixpoint mentions (d : nat) (v : val) : bool :=
  match v with
  | VObject props => existsb (λ kv, mentions d kv.2) props
  | VArray elems => existsb (mentions d) elems
  | VFun f props =>
      mentions_func d f || existsb (λ kv, mentions d kv.2) props
  | _ => false
  end
with mentions_func (d : nat) (f : func) : bool :=
  match f with
  | FResolve p | FReject p => (p =? d)%nat
  | FThenExec self onfulfilled onrejected =>
      mentions d self || mentions d onfulfilled || mentions d onrejected
  | FFinallyOk v | FFinallyErr v | FResolveExec v | FRejectExec v | FAllErr v =>
      mentions d v
  | FAllExec _ q | FRaceExec q => existsb (mentions d) q
  | FAllOk _ _ _ res => mentions d res
  | FHost _ env => existsb (mentions d) env
  | _ => false
  end.

Definition clean (d : nat) (v : val) : Prop := mentions d v = false.

(** ** Specifications of computations *)

Section Respect.

(** [G] are the values a computation may be handed, [I] is an invariant of
    the store, [R] bounds what a computation may change. *)
Variable G : val → Prop.
Variable I : world → Prop.
Variable R : world → world → Prop.

Definition good_completion (c : completion) : Prop :=
  match c with Normal v | Throw v => G v end.

Definition respects (m : M) : Prop :=
  ∀ w c w', I w → m w = Some (c, w') → good_completion c ∧ I w' ∧ R w w'.

Definition good_handler (h : handler) : Prop :=
  G (executor h) ∧ G (resolve h) ∧ G (reject h).

Inductive good_script : script → Prop :=
| good_Return v : G v → good_script (Return v)
| good_Raise v : G v → good_script (Raise v)
| good_Invoke f this args k :
    G f → G this → Forall G args →
    (∀ c, good_completion c → good_script (k c)) →
    good_script (Invoke f this args k).

End Respect.

(** What any run leaves alone: promises are never deallocated, a settled
    promise keeps its state and result, and the micro task queue only grows
    at its end. *)
Record extends (w w' : world) : Prop := Extends {
  ext_heap : (length (heap w) ≤ length (heap w'))%nat;
  ext_settled : ∀ p, state_of p w ≠ PENDING →
                state_of p w' = state_of p w ∧ result_of p w' = result_of p w;
  ext_micro : ∃ extra, microQueue w' = microQueue w ++ extra
}.

(** A handler record that holds no resolver of [d]. *)
Definition no_resolver (d : nat) (h : handler) : Prop :=
  good_handler (clean d) h.

(** No result, queued record, scheduled callback or [all] scope holds a
    resolver of [d], apart from the records [okrec] allows their owner. *)
Record store_ok (d : nat) (okrec : nat → handler → Prop) (w : world) : Prop := StoreOk {
  ok_results : ∀ p, clean d (result_of p w);
  ok_queues : ∀ p, Forall (okrec p) (queue_of p w);
  ok_micro : Forall (λ t, okrec (owner t) (job t)) (microQueue w);
  ok_scopes : Forall (λ s, Forall (clean d) (values s)) (scopes w)
}.

Definition sealed (d : nat) (okrec : nat → handler → Prop) (w : world) : Prop :=
  d < length (heap w) ∧ store_ok d okrec w.

Definition same_outcome (d : nat) (w w' : world) : Prop :=
  state_of d w' = state_of d w ∧ result_of d w' = result_of d w.

(** Client code that only passes on the resolvers it was given. *)
Definition honest (host : nat → list val → val → list val → script) : Prop :=
  ∀ d n env this args,
    Forall (clean d) env → clean d this → Forall (clean d) args →
    good_script (clean d) (host n env this args).

(** A store that holds no resolver of the promise allocated next. *)
Definition fresh (w : world) : Prop :=
  store_ok (length (heap w)) (λ _, no_resolver (length (heap w))) w.

(** The two records [then] queues on its receiver for its return value [d]. *)
Definition then_records (onfulfilled onrejected : val) (d : nat) : list handler :=
  [Handler onfulfilled FULFILLED (VFun (FResolve d) []) (VFun (FReject d) []);
   Handler onrejected REJECTED (VFun (FResolve d) []) (VFun (FReject d) [])].

(** [d] is pending, and its resolvers live only in the records [links]
    owned by [p]. *)
Definition guarded (p d : nat) (links : list handler) (w : world) : Prop :=
  state_of d w = PENDING
  ∧ sealed d (λ q h, no_resolver d h ∨ (q = p ∧ h ∈ links)) w.

(** Everything that can happen to a store while no client holds a resolver
    of [d] and none of the records [links] of [p] has run its continuation:
    client code runs, or the scheduler runs the next callback. *)
Inductive waits (host : nat → list val → val → list val → script)
    (p d : nat) (links : list handler) : world → world → Prop :=
| waits_refl w : waits host p d links w w
| waits_client w s fuel c w' w'' :
    good_script (clean d) s →
    run_script (call host fuel) s w = Some (c, w') →
    waits host p d links w' w'' →
    waits host p d links w w''
| waits_task w t rest fuel c w' w'' :
    microQueue w = t :: rest →
    ¬ (owner t = p ∧ job t ∈ links ∧ state (job t) = state_of p w) →
    handler_task (call host fuel) t (set_micro rest w) = Some (c, w') →
    waits host p d links w' w'' →
    waits host p d links w w''.

(** A direct call of [complete] or [fail] on a promise. *)
Inductive settle_call : Type :=
| Complete (value : val)
| Fail (reason : val).

Definition apply_settle (p : nat) (w : world) (c : settle_call) : world :=
  match c with
  | Complete value => _resolve p value w
  | Fail reason => _reject p reason w
  end.

(** ** Sample client code *)

(** 0: [(resolve) => { resolve(env[0]) }]
    1: [(resolve) => { resolve(1); throw 'boom' }]
    2: [() => { throw env[0] }]
    3: [then(resolve) { resolve(7) }], the method of a foreign thenable
    4: [() => env[0]]
    otherwise: [() => undefined] *)
Definition sample_host (n : nat) (env : list val) (this : val) (args : list val) : script :=
  match n with
  | 0 => Invoke (arg 0 args) VUndefined [arg 0 env] (λ _, Return VUndefined)
  | 1 => Invoke (arg 0 args) VUndefined [VNum 1] (λ _, Raise (VStr "boom"))
  | 2 => Raise (arg 0 env)
  | 3 => Invoke (arg 0 args) VUndefined [VNum 7] (λ _, Return VUndefined)
  | 4 => Return (arg 0 env)
  | _ => Return VUndefined
  end.

(** [{ then(resolve) { resolve(7) } }] *)
Definition thenable : val := VObject [("then", VFun (FHost 3 []) [])].


(** What the drain loop leaves of a promise: its queue is empty. *)
Definition clear_queue (pr : promise) : promise :=
  Promise (_state pr) (_result pr) [].

(** The store [receiver.then(onfulfilled, onrejected)] leaves behind: a new
    promise, two records on the receiver, and one drain of its queue. *)
Definition then_store (p : nat) (onfulfilled onrejected : val) (w : world) : world :=
  let d := length (heap w) in
  _executeHandlers p
    (_pushHandler p onrejected REJECTED (VFun (FResolve d) []) (VFun (FReject d) [])
       (_pushHandler p onfulfilled FULFILLED (VFun (FResolve d) []) (VFun (FReject d) [])
          (alloc w))).

(** With no record to wait for, [waits] is every run in which no client
    holds a resolver of [d]. *)
Definition evolves (host : nat → list val → val → list val → script) (d : nat) :
    world → world → Prop :=
  waits host d d [].

(** A store with one promise, already settled. *)
Definition settled_world (st : status) (result : val) : world :=
  _changeState 0 st result (alloc empty_world).

(** [() => { throw 'boom' }] *)
Definition sample_raiser : val := VFun (FHost 2 [VStr "boom"]) [].

(** [() => thenable], an [onfinally] that returns a promise-like object *)
Definition sample_onfinally : val := VFun (FHost 4 [thenable]) [].

(** [const p = MyPromise.reject('no'); return combinator([3, p, thenable])] *)
Definition sample_combine (combinator : func) : script :=
  Invoke (VFun FStaticReject []) VUndefined [VStr "no"] (λ c,
    match c with
    | Normal p =>
        Invoke (VFun combinator []) VUndefined [VArray [VNum 3; p; thenable]] (λ c',
          match c' with Normal v => Return v | Throw e => Raise e end)
    | Throw e => Raise e
    end).

(** [return MyPromise.resolve(5).then(() => { throw 'boom' }).catch(undefined).finally(() => thenable)] *)
Definition sample_chain : script :=
  Invoke (VFun FStaticResolve []) VUndefined [VNum 5] (λ c,
    match c with
    | Normal p0 =>
        Invoke (get_prop p0 "then") p0 [sample_raiser] (λ c,
          match c with
          | Normal p1 =>
              Invoke (get_prop p1 "catch") p1 [VUndefined] (λ c,
                match c with
                | Normal p2 =>
                    Invoke (get_prop p2 "finally") p2 [sample_onfinally] (λ c,
                      match c with Normal v => Return v | Throw e => Raise e end)
                | Throw e => Raise e
                end)
          | Throw e => Raise e
          end)
    | Throw e => Raise e
    end).

(** The state and result of the promise a program returned. *)
Definition outcome (r : option (completion * world)) : option (status * val) :=
  match r with
  | Some (Normal (VPromise p), w) => Some (state_of p w, result_of p w)
  | _ => None
  end.

(** ** The [forEach] of a combinator over items that are not promise-like *)

(** The store after the callback of [forEach] has handled one such item:
    [MyPromise.resolve(item)] allocates a promise already fulfilled with the
    item, and [then] attaches the two continuations to it. *)
Definition attach_plain (onfulfilled onrejected item : val) (w : world) : world :=
  then_store (length (heap w)) onfulfilled onrejected
    (_resolve (length (heap w)) item (alloc w)).

(** The store after the whole [forEach]; [conts] gives the continuations
    attached at each position. *)
Fixpoint attach_each (conts : nat → val * val) (items : list val) (index : nat)
    (w : world) : world :=
  match items with
  | [] => w
  | item :: rest =>
      attach_each conts rest (S index)
        (attach_plain (conts index).1 (conts index).2 item w)
  end.

(** The callbacks that [forEach] schedules for [n] items, the first wrapper
    promise being allocated at [base]. *)
Fixpoint attach_tasks (conts : nat → val * val) (n index base : nat) : list task :=
  match n with
  | 0 => []
  | S n' =>
      map (Task base) (then_records (conts index).1 (conts index).2 (S base))
      ++ attach_tasks conts n' (S index) (S (S base))
  end.

(** The wrapper promises of the items, from [base] on: each is fulfilled
    with its item, and the promise [then] returned for it is pending. *)
Fixpoint attached (w : world) (items : list val) (base : nat) : Prop :=
  match items with
  | [] => True
  | item :: rest =>
      get_promise base w = Promise FULFILLED item []
      ∧ get_promise (S base) w = fresh_promise
      ∧ attached w rest (S (S base))
  end.

(** The continuations [all] attaches at position [index]; those of [race]. *)
Definition all_conts (c len : nat) (res rej : val) (index : nat) : val * val :=
  (VFun (FAllOk c index len res) [], VFun (FAllErr rej) []).

Definition race_conts (res rej : val) (index : nat) : val * val := (res, rej).

(** ** The store operations *)

Lemma status_eqb_eq a b : status_eqb a b = true ↔ a = b.
Proof. destruct a, b; simpl; split; congruence. Qed.

Lemma status_eqb_refl a : status_eqb a a = true.
Proof. by destruct a. Qed.

Lemma get_promise_alloc q w : get_promise q (alloc w) = get_promise q w.
Proof.
  unfold get_promise, alloc; simpl.
  destruct (decide (q < length (heap w))) as [Hlt|Hge].
  - by rewrite lookup_app_l.
  - rewrite lookup_app_r by lia.
    rewrite (lookup_ge_None_2 (heap w)) by lia.
    by destruct (q - length (heap w)).
Qed.

Lemma get_promise_update_eq p f w :
  p < length (heap w) →
  get_promise p (update_promise p f w) = f (get_promise p w).
Proof.
  intros Hlt. unfold get_promise, update_promise; simpl.
  rewrite list_lookup_alter_eq.
  destruct (lookup_lt_is_Some_2 _ _ Hlt) as [pr ->]. done.
Qed.

Lemma get_promise_update_ne p q f w :
  p ≠ q → get_promise q (update_promise p f w) = get_promise q w.
Proof.
  intros Hne. unfold get_promise, update_promise; simpl.
  by rewrite list_lookup_alter_ne.
Qed.

Lemma update_promise_missing p f w :
  (length (heap w) ≤ p)%nat → update_promise p f w = w.
Proof.
  intros Hge. unfold update_promise, set_heap. destruct w as [h m s]; simpl in *.
  f_equal. apply list_eq; intros i. rewrite list_lookup_alter.
  case_decide; subst; [|done]. by rewrite lookup_ge_None_2.
Qed.

Lemma update_promise_compose p f g w :
  update_promise p f (update_promise p g w) = update_promise p (f ∘ g) w.
Proof.
  unfold update_promise, set_heap; simpl. f_equal.
  by rewrite list_alter_alter_eq.
Qed.

Lemma heap_update_length p f w :
  length (heap (update_promise p f w)) = length (heap w).
Proof. unfold update_promise; simpl. apply length_alter. Qed.

Lemma update_promise_id p f w :
  f (get_promise p w) = get_promise p w → update_promise p f w = w.
Proof.
  intros Hf. unfold update_promise, set_heap. destruct w as [h m s]; simpl in *.
  f_equal. apply list_eq; intros i. rewrite list_lookup_alter.
  case_decide as Heq; [subst i|done].
  unfold get_promise in Hf; simpl in Hf.
  destruct (h !! p) as [pr|]; simpl in *; [by rewrite Hf | done].
Qed.

Lemma queue_nonempty_allocated p w h q :
  queue_of p w = h :: q → p < length (heap w).
Proof.
  unfold queue_of, get_promise. intros Hq.
  destruct (heap w !! p) as [pr|] eqn:Hp; [by eapply lookup_lt_Some | done].
Qed.

Lemma handlers_loop_spec n p w :
  n = length (queue_of p w) →
  handlers_loop n p w =
    set_micro (microQueue w ++ map (Task p) (queue_of p w))
      (update_promise p clear_queue w).
Proof.
  revert w. induction n as [|n IH]; intros w Hn; simpl.
  - destruct (queue_of p w) as [|h q] eqn:Hq; [|done]. simpl.
    rewrite app_nil_r, update_promise_id.
    + by destruct w.
    + unfold queue_of in Hq. destruct (get_promise p w); simpl in *. by subst.
  - destruct (queue_of p w) as [|h q] eqn:Hq; [done|].
    pose proof (queue_nonempty_allocated _ _ _ _ Hq) as Hlt.
    set (w1 := shift p (_executeCurrentHandler p h w)).
    assert (queue_of p w1 = q) as Hq1.
    { unfold w1, shift, queue_of. rewrite get_promise_update_eq by done.
      simpl. unfold queue_of in Hq.
      change (get_promise p (_executeCurrentHandler p h w)) with (get_promise p w).
      by rewrite Hq. }
    rewrite IH by (rewrite Hq1; simpl in Hn; lia).
    rewrite Hq1. unfold w1, shift. rewrite update_promise_compose.
    unfold _executeCurrentHandler, executeMicroQueueTask, update_promise,
      set_micro, set_heap; simpl.
    rewrite <- app_assoc; simpl.
    rewrite (list_alter_ext _ clear_queue (heap w) (heap w) p); [done| |done].
    by intros [st r hq] _.
Qed.

Lemma executeHandlers_settled p w :
  state_of p w ≠ PENDING →
  _executeHandlers p w =
    set_micro (microQueue w ++ map (Task p) (queue_of p w))
      (update_promise p clear_queue w).
Proof.
  intros Hp. unfold _executeHandlers.
  destruct (status_eqb (state_of p w) PENDING) eqn:E.
  - by apply status_eqb_eq in E.
  - by apply handlers_loop_spec.
Qed.

Lemma changeState_settled p st result w :
  state_of p w ≠ PENDING → _changeState p st result w = w.
Proof.
  intros Hp. unfold _changeState.
  destruct (status_eqb (state_of p w) PENDING) eqn:E; [|done].
  by apply status_eqb_eq in E.
Qed.

Lemma changeState_pending p st result w :
  p < length (heap w) → state_of p w = PENDING → st ≠ PENDING →
  _changeState p st result w =
    set_micro (microQueue w ++ map (Task p) (queue_of p w))
      (update_promise p (λ _, Promise st result []) w).
Proof.
  intros Hlt Hp Hst. unfold _changeState. rewrite Hp. simpl.
  rewrite executeHandlers_settled.
  - rewrite update_promise_compose. unfold queue_of.
    rewrite get_promise_update_eq by done. simpl.
    f_equal.
  - unfold state_of. by rewrite get_promise_update_eq.
Qed.

(** ** A program logic for calls

    One induction over the fuel shows that every call keeps an invariant
    [I] of the store and changes the store within [R], provided the store
    operations do and the client code only builds values in [G]. *)

Section Logic.

Variable host : nat → list val → val → list val → script.
Variable G : val → Prop.
Variable I : world → Prop.
Variable R : world → world → Prop.

Hypothesis R_refl : ∀ w, R w w.
Hypothesis R_trans : ∀ w1 w2 w3, R w1 w2 → R w2 w3 → R w1 w3.
Hypothesis G_build : ∀ v, is_resolver v = false → Forall G (children v) → G v.
Hypothesis G_children : ∀ v, G v → Forall G (children v).
Hypothesis G_fresh : ∀ w, I w →
  G (VFun (FResolve (length (heap w))) [])
  ∧ G (VFun (FReject (length (heap w))) []).
Hypothesis I_alloc : ∀ w, I w → I (alloc w) ∧ R w (alloc w).
Hypothesis I_resolve : ∀ p props v w,
  G (VFun (FResolve p) props) → G v → I w →
  I (_resolve p v w) ∧ R w (_resolve p v w).
Hypothesis I_reject : ∀ p props v w,
  G (VFun (FReject p) props) → G v → I w →
  I (_reject p v w) ∧ R w (_reject p v w).
Hypothesis I_push : ∀ p ex st res rej w,
  G ex → G res → G rej → I w →
  I (_pushHandler p ex st res rej w) ∧ R w (_pushHandler p ex st res rej w).
Hypothesis I_execute : ∀ p w,
  I w → I (_executeHandlers p w) ∧ R w (_executeHandlers p w).
Hypothesis I_alloc_scope : ∀ w, I w → I (alloc_scope w) ∧ R w (alloc_scope w).
Hypothesis I_record : ∀ c index v w,
  G v → I w → I (record_value c index v w) ∧ R w (record_value c index v w).
Hypothesis I_values : ∀ c w, I w → Forall G (values (get_scope c w)).
Hypothesis I_result : ∀ p w, I w → G (result_of p w).
Hypothesis host_good : ∀ n env this args,
  Forall G env → G this → Forall G args → good_script G (host n env this args).

Local Abbreviation respects := (respects G I R).

Lemma G_plain v : children v = [] → is_resolver v = false → G v.
Proof. intros Hc Hr. apply G_build; [done|]. rewrite Hc. constructor. Qed.

Lemma G_undefined : G VUndefined.
Proof. by apply G_plain. Qed.

Lemma G_TypeError msg : G (TypeError msg).
Proof.
  apply G_build; [done|]. simpl. repeat constructor; by apply G_plain.
Qed.

Lemma G_assoc k props : Forall G props.*2 → G (assoc k props).
Proof.
  induction props as [|[k' v] props IH]; simpl; intros Hall.
  - apply G_undefined.
  - inv Hall. destruct (String.eqb k k'); auto.
Qed.

Lemma G_get_prop v k : G v → G (get_prop v k).
Proof.
  intros Hv. pose proof (G_children v Hv) as Hc.
  destruct v; simpl in *; try apply G_undefined.
  - by apply G_assoc.
  - repeat case_match; by apply G_plain.
  - apply Forall_app in Hc as [_ Hc]. by apply G_assoc.
Qed.

Lemma G_arg i args : Forall G args → G (arg i args).
Proof.
  intros Hall. unfold arg.
  destruct (args !! i) as [v|] eqn:E; simpl; [|apply G_undefined].
  by eapply Forall_lookup_1.
Qed.

Lemma G_closure f :
  match f with FResolve _ | FReject _ => False | _ => True end →
  Forall G (func_children f) → G (VFun f []).
Proof.
  intros Hf Hc. apply G_build.
  - by destruct f.
  - simpl. by rewrite app_nil_r.
Qed.

Lemma G_captured f props : G (VFun f props) → Forall G (func_children f).
Proof. intros Hv. apply G_children in Hv. simpl in Hv. by apply Forall_app in Hv as [? _]. Qed.

Lemma respects_ret v : G v → respects (ret v).
Proof. intros Hv w c w' Hw [= <- <-]. auto. Qed.

Lemma respects_throw v : G v → respects (throw v).
Proof. intros Hv w c w' Hw [= <- <-]. auto. Qed.

Lemma respects_effect f :
  (∀ w, I w → I (f w) ∧ R w (f w)) → respects (effect f).
Proof.
  intros Hf w c w' Hw [= <- <-]. destruct (Hf w Hw). split_and!; auto.
  apply G_undefined.
Qed.

Lemma respects_bind m k :
  respects m → (∀ v, G v → respects (k v)) → respects (bind m k).
Proof.
  intros Hm Hk w c w' Hw. unfold bind.
  destruct (m w) as [[[v|e] w1]|] eqn:E; [| |done].
  - destruct (Hm _ _ _ Hw E) as (Hv & Hw1 & HR). intros Hkv.
    destruct (Hk v Hv _ _ _ Hw1 Hkv) as (? & ? & ?). eauto.
  - intros [= <- <-]. by apply (Hm _ _ _ Hw E).
Qed.

Lemma respects_try_catch m h :
  respects m → (∀ e, G e → respects (h e)) → respects (try_catch m h).
Proof.
  intros Hm Hh w c w' Hw. unfold try_catch.
  destruct (m w) as [[[v|e] w1]|] eqn:E; [| |done].
  - intros [= <- <-]. by apply (Hm _ _ _ Hw E).
  - destruct (Hm _ _ _ Hw E) as (He & Hw1 & HR). intros Hhe.
    destruct (Hh e He _ _ _ Hw1 Hhe) as (? & ? & ?). eauto.
Qed.

Section Body.

Variable rec : callT.
Hypothesis rec_ok : ∀ f this args,
  G f → G this → Forall G args → respects (rec f this args).

Lemma respects_run_script s :
  good_script G s → respects (run_script rec s).
Proof.
  induction 1 as [v Hv|v Hv|f this args k Hf Hthis Hargs Hk IH]; simpl.
  - by apply respects_ret.
  - by apply respects_throw.
  - intros w c w' Hw.
    destruct (rec f this args w) as [[c1 w1]|] eqn:E; [|done].
    destruct (rec_ok _ _ _ Hf Hthis Hargs _ _ _ Hw E) as (Hc1 & Hw1 & HR).
    intros Hrun. destruct (IH c1 Hc1 _ _ _ Hw1 Hrun) as (? & ? & ?). eauto.
Qed.

Lemma respects_call_method receiver name args :
  G receiver → Forall G args → respects (call_method rec receiver name args).
Proof. intros. apply rec_ok; auto using G_get_prop. Qed.

Lemma respects_new executor :
  G executor → respects (MyPromise_new rec executor).
Proof.
  intros Hex w c w' Hw. unfold MyPromise_new.
  destruct (G_fresh w Hw) as [Hres Hrej].
  destruct (I_alloc w Hw) as [Hw0 HR0].
  destruct (rec _ _ _ _) as [[[v|e] w1]|] eqn:E; [| |done].
  - intros [= <- <-].
    destruct (rec_ok _ _ _ Hex G_undefined
                (Forall_cons_2 _ _ _ Hres (Forall_cons_2 _ _ _ Hrej (Forall_nil_2 _)))
                _ _ _ Hw0 E) as (_ & Hw1 & HR1).
    split_and!; eauto. by apply G_plain.
  - intros [= <- <-].
    destruct (rec_ok _ _ _ Hex G_undefined
                (Forall_cons_2 _ _ _ Hres (Forall_cons_2 _ _ _ Hrej (Forall_nil_2 _)))
                _ _ _ Hw0 E) as (He & Hw1 & HR1).
    destruct (I_reject _ _ _ _ Hrej He Hw1) as [Hw2 HR2].
    split_and!; eauto. by apply G_plain.
Qed.

Lemma respects_then_executor this onfulfilled onrejected res rej :
  G onfulfilled → G onrejected → G res → G rej →
  respects (then_executor this onfulfilled onrejected res rej).
Proof.
  intros Hf Hr Hres Hrej. unfold then_executor.
  destruct this; try (apply respects_throw, G_TypeError).
  apply respects_effect. intros w Hw.
  destruct (I_push p onfulfilled FULFILLED res rej w) as [Hw1 HR1]; auto.
  destruct (I_push p onrejected REJECTED res rej _ Hr Hres Hrej Hw1) as [Hw2 HR2].
  destruct (I_execute p _ Hw2) as [Hw3 HR3]. eauto.
Qed.

Lemma respects_run_onfinally onfinally :
  G onfinally → respects (run_onfinally rec onfinally).
Proof.
  intros Hf. unfold run_onfinally. destruct (is_function onfinally).
  - apply rec_ok; auto using G_undefined.
  - apply respects_ret, G_undefined.
Qed.

Lemma respects_resolve_executor value res rej :
  G value → G res → G rej → respects (resolve_executor rec value res rej).
Proof.
  intros Hv Hres Hrej. unfold resolve_executor.
  apply respects_bind; [|intros _ _; apply respects_ret, G_undefined].
  destruct (isPromise value).
  - apply respects_call_method; auto.
  - apply rec_ok; auto using G_undefined.
Qed.

Lemma respects_resolve value : G value → respects (MyPromise_resolve rec value).
Proof. intros Hv. apply respects_new, G_closure; simpl; auto. Qed.

Lemma respects_all_forEach c len res rej items index :
  G res → G rej → Forall G items →
  respects (all_forEach rec c len res rej items index).
Proof.
  intros Hres Hrej Hitems. revert index.
  induction Hitems as [|item rest Hitem Hrest IH]; intros index; simpl.
  - apply respects_ret, G_undefined.
  - apply respects_bind; [by apply respects_resolve|]. intros pr Hpr.
    apply respects_bind; [|intros _ _; apply IH].
    apply respects_call_method; [done|].
    repeat constructor; apply G_closure; simpl; auto.
Qed.

Lemma respects_all_executor c promiseQueue res rej :
  G res → G rej → Forall G promiseQueue →
  respects (all_executor rec c promiseQueue res rej).
Proof.
  intros Hres Hrej Hq. unfold all_executor. case_match.
  - apply respects_bind; [|intros _ _; apply respects_ret, G_undefined].
    apply rec_ok; auto using G_undefined.
  - by apply respects_all_forEach.
Qed.

Lemma respects_all_onfulfilled c index len res value :
  G res → G value → respects (all_onfulfilled rec c index len res value).
Proof.
  intros Hres Hv w r w' Hw. unfold all_onfulfilled.
  destruct (I_record c index value w Hv Hw) as [Hw1 HR1].
  assert (G (VArray (values (get_scope c (record_value c index value w))))) as Harr.
  { apply G_build; [done|]. simpl. by apply I_values. }
  intros Hrun.
  assert (good_completion G r ∧ I w' ∧ R (record_value c index value w) w')
    as (? & ? & ?); [|eauto].
  revert Hrun. case_match.
  - apply respects_bind; [|intros _ _; apply respects_ret, G_undefined|done].
    apply rec_ok; auto using G_undefined.
  - by apply respects_ret; [apply G_undefined|].
Qed.

Lemma respects_all promiseQueue :
  Forall G promiseQueue → respects (MyPromise_all rec promiseQueue).
Proof.
  intros Hq w c w' Hw. unfold MyPromise_all.
  destruct (I_alloc_scope w Hw) as [Hw1 HR1]. intros Hnew.
  assert (G (VFun (FAllExec (length (scopes w)) promiseQueue) [])) as Hex
    by (apply G_closure; simpl; auto).
  destruct (respects_new _ Hex _ _ _ Hw1 Hnew) as (? & ? & ?). eauto.
Qed.

Lemma respects_allSettled_map items w r :
  Forall G items → I w → allSettled_map rec items w = Some r →
  match r with
  | inl (c, w') => good_completion G c ∧ I w' ∧ R w w'
  | inr (qs, w') => Forall G qs ∧ I w' ∧ R w w'
  end.
Proof.
  intros Hitems. revert w r.
  induction Hitems as [|item rest Hitem Hrest IH]; intros w r Hw; simpl.
  - intros [= <-]. auto.
  - match goal with |- context [bind ?m ?k w] =>
      assert (respects (bind m k)) as Hstep end.
    { apply respects_bind; [by apply respects_resolve|]. intros pr Hpr.
      apply respects_call_method; [done|].
      repeat constructor; apply G_closure; simpl; auto. }
    match goal with |- context [bind ?m ?k w] =>
      destruct (bind m k w) as [[[q|e] w1]|] eqn:E end; [| |done].
    + destruct (Hstep _ _ _ Hw E) as (Hq & Hw1 & HR1).
      destruct (allSettled_map rec rest w1) as [[[c w2]|[qs w2]]|] eqn:E2;
        [| |done]; intros [= <-].
      * destruct (IH _ _ Hw1 E2) as (? & ? & ?). eauto.
      * destruct (IH _ _ Hw1 E2) as (? & ? & ?). split_and!; eauto.
    + intros [= <-]. by apply (Hstep _ _ _ Hw E).
Qed.

Lemma respects_allSettled promiseQueue :
  Forall G promiseQueue → respects (MyPromise_allSettled rec promiseQueue).
Proof.
  intros Hq w c w' Hw. unfold MyPromise_allSettled.
  destruct (allSettled_map rec promiseQueue w) as [[[c1 w1]|[qs w1]]|] eqn:E;
    [| |done].
  - intros [= <- <-]. apply (respects_allSettled_map _ _ _ Hq Hw E).
  - destruct (respects_allSettled_map _ _ _ Hq Hw E) as (Hqs & Hw1 & HR1).
    intros Hall. destruct (respects_all _ Hqs _ _ _ Hw1 Hall) as (? & ? & ?).
    eauto.
Qed.

Lemma respects_race_forEach res rej items :
  G res → G rej → Forall G items → respects (race_forEach rec res rej items).
Proof.
  intros Hres Hrej Hitems.
  induction Hitems as [|item rest Hitem Hrest IH]; simpl.
  - apply respects_ret, G_undefined.
  - apply respects_bind; [by apply respects_resolve|]. intros pr Hpr.
    apply respects_bind; [|intros _ _; apply IH].
    apply respects_call_method; auto.
Qed.

Lemma G_array_elems v q : G v → v = VArray q → Forall G q.
Proof. intros Hv ->. by apply G_children in Hv. Qed.

Lemma respects_call_body f this args :
  G f → G this → Forall G args → respects (call_body host rec f this args).
Proof.
  intros Hf Hthis Hargs. unfold call_body.
  pose proof (G_arg 0 _ Hargs) as Ha0.
  pose proof (G_arg 1 _ Hargs) as Ha1.
  destruct f as [| | | | | | | |fn props]; try (apply respects_throw, G_TypeError).
  pose proof (G_captured _ _ Hf) as Hc.
  destruct fn; simpl in Hc.
  - by apply respects_new.
  - apply respects_new, G_closure; simpl; auto.
  - apply respects_call_method; auto using G_undefined.
  - apply respects_call_method; [done|].
    repeat constructor; apply G_closure; simpl; auto.
  - by apply respects_resolve.
  - apply respects_new, G_closure; simpl; auto.
  - destruct (arg 0 args) eqn:E; try (apply respects_throw, G_TypeError).
    apply respects_all. exact (G_array_elems _ _ Ha0 eq_refl).
  - destruct (arg 0 args) eqn:E; try (apply respects_throw, G_TypeError).
    apply respects_allSettled. exact (G_array_elems _ _ Ha0 eq_refl).
  - destruct (arg 0 args) eqn:E; try (apply respects_throw, G_TypeError).
    apply respects_new, G_closure; simpl; [done|]. exact (G_array_elems _ _ Ha0 eq_refl).
  - apply respects_effect. intros w Hw. by eapply I_resolve.
  - apply respects_effect. intros w Hw. by eapply I_reject.
  - inv Hc. inv H2. inv H4. by apply respects_then_executor.
  - inv Hc. apply respects_bind; [by apply respects_run_onfinally|].
    intros _ _. by apply respects_ret.
  - inv Hc. apply respects_bind; [by apply respects_run_onfinally|].
    intros _ _. by apply respects_throw.
  - inv Hc. by apply respects_resolve_executor.
  - inv Hc. apply respects_bind; [|intros _ _; apply respects_ret, G_undefined].
    apply rec_ok; auto using G_undefined.
  - by apply respects_all_executor.
  - inv Hc. by apply respects_all_onfulfilled.
  - inv Hc. apply respects_bind; [|intros _ _; apply respects_ret, G_undefined].
    apply rec_ok; auto using G_undefined.
  - apply respects_ret, G_build; [done|]. simpl.
    repeat constructor; auto using G_plain.
  - apply respects_ret, G_build; [done|]. simpl.
    repeat constructor; auto using G_plain.
  - by apply respects_race_forEach.
  - apply respects_run_script. by apply host_good.
Qed.

Lemma respects_handler_task t :
  good_handler G (job t) → respects (handler_task rec t).
Proof.
  intros (Hex & Hres & Hrej) w c w' Hw. unfold handler_task.
  pose proof (I_result (owner t) w Hw) as Hresult.
  case_match.
  { intros [= <- <-]. split_and!; auto. apply G_undefined. }
  case_match.
  { revert c w'.
    assert (∀ r, G r → respects (bind
      (if status_eqb (state_of (owner t) w) FULFILLED
       then rec (resolve (job t)) VUndefined [r]
       else rec (reject (job t)) VUndefined [r])
      (λ _, ret VUndefined))) as Hforward.
    { intros r Hr. apply respects_bind; [|intros _ _; apply respects_ret, G_undefined].
      case_match; apply rec_ok; auto using G_undefined. }
    intros c w' Hrun. exact (Hforward _ Hresult _ _ _ Hw Hrun). }
  assert (∀ r, G r → respects (try_catch
    (bind (rec (executor (job t)) VUndefined [r])
       (λ result,
          bind (if isPromise result
                then call_method rec result "then" [resolve (job t); reject (job t)]
                else rec (resolve (job t)) VUndefined [result])
            (λ _, ret VUndefined)))
    (λ error, bind (rec (reject (job t)) VUndefined [error])
                (λ _, ret VUndefined)))) as Hbody.
  { intros r Hr. apply respects_try_catch.
    - apply respects_bind; [apply rec_ok; auto using G_undefined|].
      intros result Hresult'.
      apply respects_bind; [|intros _ _; apply respects_ret, G_undefined].
      case_match.
      + apply respects_call_method; auto.
      + apply rec_ok; auto using G_undefined.
    - intros e He.
      apply respects_bind; [|intros _ _; apply respects_ret, G_undefined].
      apply rec_ok; auto using G_undefined. }
  intros Hrun. exact (Hbody _ Hresult _ _ _ Hw Hrun).
Qed.

End Body.

Lemma respects_call fuel f this args :
  G f → G this → Forall G args → respects (call host fuel f this args).
Proof.
  revert f this args. induction fuel as [|n IH]; intros f this args Hf Ht Ha.
  - by intros w c w' _ [=].
  - simpl. by apply respects_call_body.
Qed.

Lemma respects_task fuel t :
  good_handler G (job t) → respects (handler_task (call host fuel) t).
Proof. apply respects_handler_task. intros. by apply respects_call. Qed.

Lemma respects_script fuel s :
  good_script G s → respects (run_script (call host fuel) s).
Proof. apply respects_run_script. intros. by apply respects_call. Qed.

End Logic.

(** ** What every run preserves *)

Lemma get_promise_update p q f w :
  get_promise q (update_promise p f w) =
    if decide (p = q ∧ p < length (heap w)) then f (get_promise q w)
    else get_promise q w.
Proof.
  case_decide as H.
  - destruct H as [<- Hlt]. by apply get_promise_update_eq.
  - destruct (decide (p = q)) as [<-|Hne].
    + rewrite update_promise_missing; [done|]. lia.
    + by apply get_promise_update_ne.
Qed.

Lemma state_of_update p q f w :
  (∀ pr, _state (f pr) = _state pr) →
  state_of q (update_promise p f w) = state_of q w.
Proof.
  intros Hf. unfold state_of. rewrite get_promise_update. by case_decide.
Qed.

Lemma result_of_update p q f w :
  (∀ pr, _result (f pr) = _result pr) →
  result_of q (update_promise p f w) = result_of q w.
Proof.
  intros Hf. unfold result_of. rewrite get_promise_update. by case_decide.
Qed.

Lemma extends_refl w : extends w w.
Proof. split; [done|done|]. exists []. by rewrite app_nil_r. Qed.

Lemma extends_trans w1 w2 w3 : extends w1 w2 → extends w2 w3 → extends w1 w3.
Proof.
  intros [H1 S1 [e1 M1]] [H2 S2 [e2 M2]]. split.
  - lia.
  - intros p Hp. destruct (S1 p Hp) as [Hs Hr].
    destruct (S2 p) as [Hs' Hr']; [congruence|]. split; congruence.
  - exists (e1 ++ e2). by rewrite M2, M1, app_assoc.
Qed.

Lemma extends_alloc w : extends w (alloc w).
Proof.
  split.
  - unfold alloc; simpl. rewrite length_app. lia.
  - intros p _. unfold state_of, result_of. by rewrite get_promise_alloc.
  - exists []. by rewrite app_nil_r.
Qed.

Lemma extends_set_micro w extra : extends w (set_micro (microQueue w ++ extra) w).
Proof. split; [done|done|]. simpl. eauto. Qed.

Lemma extends_update p f w :
  (∀ pr, _state pr ≠ PENDING → _state (f pr) = _state pr ∧ _result (f pr) = _result pr) →
  extends w (update_promise p f w).
Proof.
  intros Hf. split.
  - by rewrite heap_update_length.
  - intros q Hq. unfold state_of, result_of in *.
    rewrite get_promise_update. case_decide; [|done]. by apply Hf.
  - exists []. simpl. by rewrite app_nil_r.
Qed.

Lemma extends_executeHandlers p w : extends w (_executeHandlers p w).
Proof.
  unfold _executeHandlers. case_match; [apply extends_refl|].
  rewrite handlers_loop_spec by done.
  eapply extends_trans; [apply (extends_update p clear_queue); by intros [] _|].
  apply (extends_set_micro (update_promise p clear_queue w)).
Qed.

Lemma extends_changeState p st result w :
  extends w (_changeState p st result w).
Proof.
  destruct (decide (state_of p w = PENDING)) as [Hp|Hp];
    [|rewrite changeState_settled by done; apply extends_refl].
  unfold _changeState. rewrite Hp. simpl.
  eapply extends_trans; [|apply extends_executeHandlers].
  split.
  - by rewrite heap_update_length.
  - intros q Hq. unfold state_of, result_of in *.
    rewrite get_promise_update. case_decide as H; [|done].
    destruct H as [<- _]. done.
  - exists []. simpl. by rewrite app_nil_r.
Qed.

Lemma extends_pushHandler p ex st res rej w :
  extends w (_pushHandler p ex st res rej w).
Proof. apply extends_update. by intros [] _. Qed.

Lemma extends_scopes s w : extends w (set_scopes s w).
Proof.
  split; [done|done|]. exists []. simpl. by rewrite app_nil_r.
Qed.

Lemma good_script_any s : good_script (λ _, True) s.
Proof.
  induction s as [v|v|f this args k IH]; constructor; auto.
  clear. induction args; constructor; auto.
Qed.

Lemma Forall_any {A} (l : list A) : Forall (λ _, True) l.
Proof. induction l; constructor; auto. Qed.

(** Whatever the client code does, a call only extends the store. *)
Lemma call_extends host fuel f this args w c w' :
  call host fuel f this args w = Some (c, w') → extends w w'.
Proof.
  intros Hcall.
  assert (respects (λ _, True) (λ _, True) extends (call host fuel f this args)) as Hr.
  { apply respects_call;
      auto using Forall_any, good_script_any, extends_refl, extends_alloc,
        extends_changeState, extends_pushHandler, extends_executeHandlers,
        extends_scopes.
    all: try (intros; split; [done|]).
    all: eauto using extends_trans, extends_changeState, extends_pushHandler,
      extends_scopes, extends_executeHandlers, extends_alloc. }
  by apply Hr in Hcall as (_ & _ & ?).
Qed.

Lemma task_extends host fuel t w c w' :
  handler_task (call host fuel) t w = Some (c, w') → extends w w'.
Proof.
  intros Hrun.
  assert (respects (λ _, True) (λ _, True) extends (handler_task (call host fuel) t)) as Hr.
  { apply respects_task;
      auto using Forall_any, good_script_any, extends_refl, extends_alloc.
    all: try (intros; split; [done|]).
    all: eauto using extends_trans, extends_changeState, extends_pushHandler,
      extends_scopes, extends_executeHandlers, extends_alloc. }
  by apply Hr in Hrun as (_ & _ & ?).
Qed.

Lemma script_extends host fuel s w c w' :
  run_script (call host fuel) s w = Some (c, w') → extends w w'.
Proof.
  intros Hrun.
  assert (respects (λ _, True) (λ _, True) extends (run_script (call host fuel) s)) as Hr.
  { apply respects_script;
      auto using Forall_any, good_script_any, extends_refl, extends_alloc.
    all: try (intros; split; [done|]).
    all: eauto using extends_trans, extends_changeState, extends_pushHandler,
      extends_scopes, extends_executeHandlers, extends_alloc. }
  by apply Hr in Hrun as (_ & _ & ?).
Qed.

(** ** Stores that keep the resolvers of one promise out of reach *)

Lemma existsb_false {A} (f : A → bool) (l : list A) :
  existsb f l = false ↔ Forall (λ x, f x = false) l.
Proof.
  induction l as [|x l IH]; simpl.
  - split; [constructor|done].
  - rewrite orb_false_iff, Forall_cons, IH. done.
Qed.

Lemma mentions_props d (props : list (string * val)) :
  existsb (λ kv, mentions d kv.2) props = false ↔ Forall (clean d) props.*2.
Proof. rewrite existsb_false, Forall_fmap. done. Qed.

Lemma mentions_list d (l : list val) :
  existsb (mentions d) l = false ↔ Forall (clean d) l.
Proof. apply existsb_false. Qed.

Lemma clean_build d v :
  is_resolver v = false → Forall (clean d) (children v) → clean d v.
Proof.
  unfold clean at 2. destruct v as [| | | | |props|elems|p|f props]; simpl; try done.
  - intros _. by rewrite mentions_props.
  - intros _. by rewrite mentions_list.
  - intros Hr [Hf Hp]%Forall_app. apply orb_false_iff. split.
    + destruct f; simpl in *; try done;
        rewrite ?orb_false_iff, ?mentions_list;
        repeat match goal with
               | H : Forall _ (_ :: _) |- _ => apply Forall_cons in H as [? H]
               end; auto.
    + by rewrite mentions_props.
Qed.

Lemma clean_children d v : clean d v → Forall (clean d) (children v).
Proof.
  unfold clean at 1. destruct v as [| | | | |props|elems|p|f props]; simpl;
    try (intros; constructor).
  - by rewrite mentions_props.
  - by rewrite mentions_list.
  - intros [Hf Hp]%orb_false_iff. apply Forall_app. split.
    + destruct f; simpl in *; try constructor;
        rewrite ?orb_false_iff, ?mentions_list in Hf;
        repeat match goal with
               | H : _ ∧ _ |- _ => destruct H
               end; repeat constructor; auto.
    + by rewrite <- mentions_props.
Qed.

Lemma clean_resolver d p props :
  clean d (VFun (FResolve p) props) → p ≠ d.
Proof.
  unfold clean; simpl. intros [H _]%orb_false_iff. by apply Nat.eqb_neq in H.
Qed.

Lemma clean_rejecter d p props :
  clean d (VFun (FReject p) props) → p ≠ d.
Proof.
  unfold clean; simpl. intros [H _]%orb_false_iff. by apply Nat.eqb_neq in H.
Qed.

Section Sealed.

Variable d : nat.
Variable okrec : nat → handler → Prop.
Hypothesis okrec_weak : ∀ p h, no_resolver d h → okrec p h.

Lemma store_ok_update p f w :
  (∀ pr, clean d (_result pr) → clean d (_result (f pr))) →
  (∀ pr, Forall (okrec p) (_handlerQueue pr) → Forall (okrec p) (_handlerQueue (f pr))) →
  store_ok d okrec w → store_ok d okrec (update_promise p f w).
Proof.
  intros Hres Hq [H1 H2 H3 H4]. split; simpl; try done.
  - intros q. unfold result_of. rewrite get_promise_update.
    case_decide as H; [|apply H1]. apply Hres, H1.
  - intros q. unfold queue_of. rewrite get_promise_update.
    case_decide as H; [|apply H2]. destruct H as [<- _]. apply Hq, H2.
Qed.

Lemma store_ok_values c w : store_ok d okrec w → Forall (clean d) (values (get_scope c w)).
Proof.
  intros [_ _ _ H]. unfold get_scope.
  destruct (scopes w !! c) as [s|] eqn:E; simpl; [|constructor].
  by apply (Forall_lookup_1 _ _ _ _ H E).
Qed.

Lemma store_ok_alloc w : store_ok d okrec w → store_ok d okrec (alloc w).
Proof.
  intros [H1 H2 H3 H4]. split; try done.
  - intros q. unfold result_of. rewrite get_promise_alloc. apply H1.
  - intros q. unfold queue_of. rewrite get_promise_alloc. apply H2.
Qed.

Lemma store_ok_set_micro q w :
  Forall (λ t, okrec (owner t) (job t)) q →
  store_ok d okrec w → store_ok d okrec (set_micro q w).
Proof. intros Hq [H1 H2 H3 H4]. by split. Qed.

Lemma store_ok_executeHandlers p w :
  store_ok d okrec w → store_ok d okrec (_executeHandlers p w).
Proof.
  intros Hw. unfold _executeHandlers. case_match; [done|].
  rewrite handlers_loop_spec by done.
  apply store_ok_set_micro.
  - apply Forall_app. split; [apply Hw|].
    apply Forall_fmap. apply (ok_queues _ _ _ Hw p).
  - apply store_ok_update; auto.
Qed.

Lemma store_ok_changeState p st v w :
  clean d v → store_ok d okrec w → store_ok d okrec (_changeState p st v w).
Proof.
  intros Hv Hw. unfold _changeState. case_match; [done|].
  apply store_ok_executeHandlers, store_ok_update; auto.
Qed.

Lemma store_ok_pushHandler p ex st res rej w :
  okrec p (Handler ex st res rej) →
  store_ok d okrec w → store_ok d okrec (_pushHandler p ex st res rej w).
Proof.
  intros Hh Hw. apply store_ok_update; auto.
  intros pr Hq; simpl. apply Forall_app. split; [done|]. by repeat constructor.
Qed.

Lemma store_ok_alloc_scope w : store_ok d okrec w → store_ok d okrec (alloc_scope w).
Proof.
  intros [H1 H2 H3 H4]. split; simpl; try done.
  apply Forall_app. split; [done|]. by repeat constructor.
Qed.

Lemma clean_array_set index v l :
  clean d v → Forall (clean d) l → Forall (clean d) (array_set index v l).
Proof.
  intros Hv Hl. unfold array_set. case_decide.
  - by apply Forall_insert.
  - apply Forall_app. split; [done|]. apply Forall_app. split.
    + by apply Forall_replicate.
    + by repeat constructor.
Qed.

Lemma store_ok_record_value c index v w :
  clean d v → store_ok d okrec w → store_ok d okrec (record_value c index v w).
Proof.
  intros Hv [H1 H2 H3 H4]. split; simpl; try done.
  apply Forall_alter; [done|]. intros s _ Hs; simpl. by apply clean_array_set.
Qed.

Lemma same_outcome_refl w : same_outcome d w w.
Proof. by split. Qed.

Lemma same_outcome_trans w1 w2 w3 :
  same_outcome d w1 w2 → same_outcome d w2 w3 → same_outcome d w1 w3.
Proof. intros [? ?] [? ?]. split; congruence. Qed.

Lemma same_outcome_update p f w :
  (∀ pr, p = d → _state (f pr) = _state pr ∧ _result (f pr) = _result pr) →
  same_outcome d w (update_promise p f w).
Proof.
  intros Hf. unfold same_outcome, state_of, result_of.
  rewrite get_promise_update. case_decide as H; [|done].
  destruct H as [-> _]. by apply Hf.
Qed.

Lemma same_outcome_executeHandlers p w : same_outcome d w (_executeHandlers p w).
Proof.
  unfold _executeHandlers. case_match; [apply same_outcome_refl|].
  rewrite handlers_loop_spec by done.
  apply (same_outcome_update p clear_queue w). by intros [] _.
Qed.

Lemma same_outcome_changeState p st v w :
  p ≠ d → same_outcome d w (_changeState p st v w).
Proof.
  intros Hne. unfold _changeState. case_match; [apply same_outcome_refl|].
  eapply same_outcome_trans; [|apply same_outcome_executeHandlers].
  by apply same_outcome_update.
Qed.

Lemma heap_executeHandlers p w :
  length (heap (_executeHandlers p w)) = length (heap w).
Proof.
  unfold _executeHandlers. case_match; [done|].
  rewrite handlers_loop_spec by done. simpl. apply length_alter.
Qed.

Lemma heap_changeState p st v w :
  length (heap (_changeState p st v w)) = length (heap w).
Proof.
  unfold _changeState. case_match; [done|].
  by rewrite heap_executeHandlers, heap_update_length.
Qed.

Local Abbreviation inv := (sealed d okrec).
Local Abbreviation rel := (same_outcome d).

Lemma sealed_logic_alloc w : inv w → inv (alloc w) ∧ rel w (alloc w).
Proof.
  intros [Hd Hw]. split; [split|].
  - unfold alloc; simpl. rewrite length_app. simpl. lia.
  - by apply store_ok_alloc.
  - unfold same_outcome, state_of, result_of. by rewrite get_promise_alloc.
Qed.

Lemma sealed_logic_changeState p st v w :
  p ≠ d → clean d v → inv w →
  inv (_changeState p st v w) ∧ rel w (_changeState p st v w).
Proof.
  intros Hne Hv [Hd Hw]. split; [split|].
  - by rewrite heap_changeState.
  - by apply store_ok_changeState.
  - by apply same_outcome_changeState.
Qed.

Lemma sealed_logic_push p ex st res rej w :
  clean d ex → clean d res → clean d rej → inv w →
  inv (_pushHandler p ex st res rej w) ∧ rel w (_pushHandler p ex st res rej w).
Proof.
  intros Hex Hres Hrej [Hd Hw]. split; [split|].
  - unfold _pushHandler. by rewrite heap_update_length.
  - apply store_ok_pushHandler; [|done]. by apply okrec_weak.
  - apply same_outcome_update. by intros [] _.
Qed.

Lemma sealed_logic_execute p w :
  inv w → inv (_executeHandlers p w) ∧ rel w (_executeHandlers p w).
Proof.
  intros [Hd Hw]. split; [split|].
  - by rewrite heap_executeHandlers.
  - by apply store_ok_executeHandlers.
  - apply same_outcome_executeHandlers.
Qed.

Lemma sealed_logic_alloc_scope w :
  inv w → inv (alloc_scope w) ∧ rel w (alloc_scope w).
Proof.
  intros [Hd Hw]. split; [split|].
  - done.
  - by apply store_ok_alloc_scope.
  - split; reflexivity.
Qed.

Lemma sealed_logic_record c index v w :
  clean d v → inv w →
  inv (record_value c index v w) ∧ rel w (record_value c index v w).
Proof.
  intros Hv [Hd Hw]. split; [split|].
  - done.
  - by apply store_ok_record_value.
  - split; reflexivity.
Qed.

Lemma sealed_logic_fresh w :
  inv w →
  clean d (VFun (FResolve (length (heap w))) [])
  ∧ clean d (VFun (FReject (length (heap w))) []).
Proof.
  intros [Hd _]. unfold clean; simpl.
  assert ((length (heap w) =? d) = false) as -> by (apply Nat.eqb_neq; lia).
  done.
Qed.

End Sealed.

Section SealedRuns.

Variable host : nat → list val → val → list val → script.
Hypothesis host_honest : honest host.
Variable d : nat.
Variable okrec : nat → handler → Prop.
Hypothesis okrec_weak : ∀ p h, no_resolver d h → okrec p h.

Ltac sealed_logic :=
  first
    [ apply same_outcome_refl
    | apply same_outcome_trans
    | apply clean_build
    | apply clean_children
    | apply sealed_logic_fresh
    | apply sealed_logic_alloc
    | by (intros p props v w Hp Hv Hw;
          apply sealed_logic_changeState;
          eauto using clean_resolver, clean_rejecter)
    | by apply sealed_logic_push
    | apply sealed_logic_execute
    | apply sealed_logic_alloc_scope
    | apply sealed_logic_record
    | by (intros c w [Hd Hw]; eapply store_ok_values)
    | by (intros p w [Hd Hw]; apply Hw)
    | by apply host_honest ].

Lemma sealed_call fuel f this args :
  clean d f → clean d this → Forall (clean d) args →
  respects (clean d) (sealed d okrec) (same_outcome d) (call host fuel f this args).
Proof. intros. apply respects_call; try done; sealed_logic. Qed.

Lemma sealed_task fuel t :
  no_resolver d (job t) →
  respects (clean d) (sealed d okrec) (same_outcome d)
    (handler_task (call host fuel) t).
Proof. intros. apply respects_task; try done; sealed_logic. Qed.

Lemma sealed_script fuel s :
  good_script (clean d) s →
  respects (clean d) (sealed d okrec) (same_outcome d)
    (run_script (call host fuel) s).
Proof. intros. apply respects_script; try done; sealed_logic. Qed.

End SealedRuns.

(** ** From [then] to the moment a record fires *)

Lemma store_ok_weaken d (ok1 ok2 : nat → handler → Prop) w :
  (∀ p h, ok1 p h → ok2 p h) → store_ok d ok1 w → store_ok d ok2 w.
Proof.
  intros Hok [H1 H2 H3 H4]. split; try done.
  - intros p. eapply Forall_impl; [apply H2|]. apply Hok.
  - eapply Forall_impl; [apply H3|]. intros t. apply Hok.
Qed.

Lemma handler_task_skip rec t w :
  state (job t) ≠ state_of (owner t) w →
  handler_task rec t w = Some (Normal VUndefined, w).
Proof.
  intros Hne. unfold handler_task.
  destruct (status_eqb _ _) eqn:E; [|done].
  by apply status_eqb_eq in E.
Qed.

Lemma then_call host k p onfulfilled onrejected w :
  call host (2 + k) (VFun FThen []) (VPromise p) [onfulfilled; onrejected] w =
    Some (Normal (VPromise (length (heap w))), then_store p onfulfilled onrejected w).
Proof. reflexivity. Qed.

Lemma heap_then_store p onfulfilled onrejected w :
  length (heap (then_store p onfulfilled onrejected w)) = S (length (heap w)).
Proof.
  unfold then_store, _pushHandler.
  rewrite heap_executeHandlers, !heap_update_length.
  unfold alloc; simpl. rewrite length_app. simpl. lia.
Qed.

Lemma state_of_missing p w : length (heap w) ≤ p → state_of p w = PENDING.
Proof.
  intros Hge. unfold state_of, get_promise. by rewrite lookup_ge_None_2.
Qed.

Lemma then_store_guarded p onfulfilled onrejected w :
  let d := length (heap w) in
  fresh w → p < d →
  guarded p d (then_records onfulfilled onrejected d)
    (then_store p onfulfilled onrejected w).
Proof.
  intros d Hfresh Hp. unfold guarded, sealed.
  rewrite heap_then_store. split_and!; [|lia|].
  - unfold then_store. cbv zeta.
    eapply eq_trans; [apply same_outcome_executeHandlers|].
    unfold _pushHandler. rewrite !state_of_update by done.
    unfold state_of. rewrite get_promise_alloc. by apply state_of_missing.
  - unfold then_store. cbv zeta.
    apply store_ok_executeHandlers.
    apply store_ok_pushHandler.
    { right. split; [done|]. unfold then_records. rewrite !elem_of_cons. auto. }
    apply store_ok_pushHandler.
    { right. split; [done|]. unfold then_records. rewrite !elem_of_cons. auto. }
    apply store_ok_alloc.
    eapply store_ok_weaken; [|exact Hfresh]. intros; by left.
Qed.

Section Waiting.

Variable host : nat → list val → val → list val → script.
Hypothesis host_honest : honest host.
Variables p d : nat.
Variable links : list handler.

Local Abbreviation okrec := (λ q h, no_resolver d h ∨ (q = p ∧ h ∈ links)).

Lemma okrec_weak q h : no_resolver d h → okrec q h.
Proof. by left. Qed.

Lemma guarded_call fuel f this args w c w' :
  clean d f → clean d this → Forall (clean d) args →
  guarded p d links w →
  call host fuel f this args w = Some (c, w') →
  good_completion (clean d) c ∧ guarded p d links w'.
Proof.
  intros Hf Ht Ha [Hpend Hw] Hcall.
  destruct (sealed_call host host_honest d okrec okrec_weak
              fuel f this args Hf Ht Ha w c w' Hw Hcall) as (Hc & Hw' & [Hs _]).
  split; [done|]. split; [congruence|done].
Qed.

Lemma guarded_script fuel s w c w' :
  good_script (clean d) s →
  guarded p d links w →
  run_script (call host fuel) s w = Some (c, w') →
  guarded p d links w'.
Proof.
  intros Hs [Hpend Hw] Hrun.
  destruct (sealed_script host host_honest d okrec okrec_weak
              fuel s Hs w c w' Hw Hrun) as (Hc & Hw' & [Hst _]).
  split; [congruence|done].
Qed.

Lemma guarded_pop t rest w :
  microQueue w = t :: rest →
  guarded p d links w →
  guarded p d links (set_micro rest w) ∧ okrec (owner t) (job t).
Proof.
  intros Hq [Hpend [Hd Hw]].
  pose proof (ok_micro _ _ _ Hw) as Hm. rewrite Hq in Hm.
  apply Forall_cons in Hm as [Ht Hrest].
  split; [|done]. split; [done|]. split; [done|].
  by apply store_ok_set_micro.
Qed.

Lemma guarded_task fuel t rest w c w' :
  microQueue w = t :: rest →
  ¬ (owner t = p ∧ job t ∈ links ∧ state (job t) = state_of p w) →
  guarded p d links w →
  handler_task (call host fuel) t (set_micro rest w) = Some (c, w') →
  guarded p d links w'.
Proof.
  intros Hq Hquiet Hg Hrun.
  destruct (guarded_pop _ _ _ Hq Hg) as [[Hpend Hw] [Hclean|[Hown Hin]]].
  - destruct (sealed_task host host_honest d okrec okrec_weak
                fuel t Hclean _ c w' Hw Hrun) as (Hc & Hw' & [Hst _]).
    split; [congruence|done].
  - rewrite handler_task_skip in Hrun.
    + injection Hrun as <- <-. by split.
    + rewrite Hown. intros Heq. apply Hquiet. by split_and!.
Qed.

Lemma guarded_waits w w' :
  guarded p d links w → waits host p d links w w' → guarded p d links w'.
Proof.
  intros Hg Hw. induction Hw as [w|w s fuel c w' w'' Hs Hrun _ IH
                                   |w t rest fuel c w' w'' Hq Hquiet Hrun _ IH].
  - done.
  - apply IH. by eapply guarded_script.
  - apply IH. by eapply guarded_task.
Qed.

End Waiting.

(** ** The sample client code is honest *)

Lemma clean_arg d i args : Forall (clean d) args → clean d (arg i args).
Proof.
  intros Hall. unfold arg.
  destruct (args !! i) as [v|] eqn:E; simpl; [|done].
  by eapply Forall_lookup_1.
Qed.

Lemma sample_host_honest : honest sample_host.
Proof.
  intros d n env this args Henv Hthis Hargs.
  destruct n as [|[|[|[|[|n]]]]]; simpl;
    repeat (constructor; auto using clean_arg); intros; by constructor.
Qed.

(** ** Settlement *)

Lemma changeState_outcome p st v w :
  p < length (heap w) → state_of p w = PENDING → st ≠ PENDING →
  state_of p (_changeState p st v w) = st
  ∧ result_of p (_changeState p st v w) = v
  ∧ queue_of p (_changeState p st v w) = []
  ∧ microQueue (_changeState p st v w) = microQueue w ++ map (Task p) (queue_of p w).
Proof.
  intros Hlt Hp Hst. rewrite changeState_pending by done.
  unfold state_of, result_of, queue_of.
  change (get_promise p (set_micro ?q ?w')) with (get_promise p w').
  rewrite get_promise_update_eq by done. done.
Qed.

(** C1, as the code has it: on a pending promise [_resolve(value)] stores
    [value] itself as the result and moves to [FULFILLED] at once, whether or
    not [value] is promise-like; nothing is attached to [value], the only
    other effect is that the queued handler records are handed to the
    scheduler. *)
Theorem resolve_stores_value p value w :
  p < length (heap w) → state_of p w = PENDING →
  state_of p (_resolve p value w) = FULFILLED
  ∧ result_of p (_resolve p value w) = value
  ∧ queue_of p (_resolve p value w) = []
  ∧ microQueue (_resolve p value w) = microQueue w ++ map (Task p) (queue_of p w)
  ∧ (∀ q, q ≠ p → get_promise q (_resolve p value w) = get_promise q w)
  ∧ scopes (_resolve p value w) = scopes w.
Proof.
  intros Hlt Hp. unfold _resolve.
  destruct (changeState_outcome p FULFILLED value w) as (H1 & H2 & H3 & H4); try done.
  split_and!; try done.
  - intros q Hq. rewrite changeState_pending by done.
    change (get_promise q (set_micro ?m ?w')) with (get_promise q w').
    by rewrite get_promise_update_ne.
  - by rewrite changeState_pending.
Qed.

Lemma resolve_stores_value_witness :
  state_of 0 (_resolve 0 thenable (alloc empty_world)) = FULFILLED
  ∧ result_of 0 (_resolve 0 thenable (alloc empty_world)) = thenable.
Proof.
  destruct (resolve_stores_value 0 thenable (alloc empty_world)) as (H1 & H2 & _).
  - simpl. lia.
  - reflexivity.
  - split; [exact H1 | exact H2].
Defined.

(** C1 fails as stated: completing a pending promise with a promise-like
    object fulfils it with that very object, in the constructor and for
    good. *)
Lemma resolve_thenable_counterexample :
  isPromise thenable = true
  ∧ state_of 0 (alloc empty_world) = PENDING
  ∧ state_of 0 (_resolve 0 thenable (alloc empty_world)) = FULFILLED
  ∧ result_of 0 (_resolve 0 thenable (alloc empty_world)) = thenable
  ∧ ∃ w, call sample_host 3 (VFun FNew []) VUndefined
           [VFun (FHost 0 [thenable]) []] empty_world
         = Some (Normal (VPromise 0), w)
       ∧ microQueue w = []
       ∧ state_of 0 w = FULFILLED
       ∧ result_of 0 w = thenable.
Proof. split_and!; try reflexivity. eexists. split_and!; reflexivity. Qed.

(** C3: on a pending promise the first [complete] or [fail] settles it with
    its own state and value; every later [complete] or [fail] leaves the
    whole store as it is; and nothing that runs afterwards, be it a call of
    any function value by any client code or a scheduled callback, changes
    the state or the result again. *)
Theorem first_settlement_wins host p w first later :
  p < length (heap w) → state_of p w = PENDING →
  state_of p (apply_settle p w first) =
    match first with Complete _ => FULFILLED | Fail _ => REJECTED end
  ∧ result_of p (apply_settle p w first) =
    match first with Complete v | Fail v => v end
  ∧ fold_left (apply_settle p) later (apply_settle p w first) = apply_settle p w first
  ∧ (∀ fuel f this args c w',
       call host fuel f this args (apply_settle p w first) = Some (c, w') →
       state_of p w' = state_of p (apply_settle p w first)
       ∧ result_of p w' = result_of p (apply_settle p w first))
  ∧ (∀ fuel t c w',
       handler_task (call host fuel) t (apply_settle p w first) = Some (c, w') →
       state_of p w' = state_of p (apply_settle p w first)
       ∧ result_of p w' = result_of p (apply_settle p w first)).
Proof.
  intros Hlt Hp.
  assert (state_of p (apply_settle p w first) =
            match first with Complete _ => FULFILLED | Fail _ => REJECTED end
          ∧ result_of p (apply_settle p w first) =
            match first with Complete v | Fail v => v end) as [Hs Hr].
  { destruct first as [v|v]; simpl; unfold _resolve, _reject;
      by destruct (changeState_outcome p FULFILLED v w) as (? & ? & _),
                  (changeState_outcome p REJECTED v w) as (? & ? & _). }
  assert (state_of p (apply_settle p w first) ≠ PENDING) as Hset.
  { rewrite Hs. by destruct first. }
  split_and!; try done.
  - induction later as [|c later IH]; simpl; [done|].
    replace (apply_settle p (apply_settle p w first) c) with (apply_settle p w first);
      [done|].
    destruct c; simpl; unfold _resolve, _reject; by rewrite changeState_settled.
  - intros fuel f this args c w' Hcall.
    by apply (ext_settled _ _ (call_extends _ _ _ _ _ _ _ _ Hcall)).
  - intros fuel t c w' Hrun.
    by apply (ext_settled _ _ (task_extends _ _ _ _ _ _ Hrun)).
Qed.

Lemma first_settlement_wins_witness :
  state_of 0 (apply_settle 0 (alloc empty_world) (Complete (VNum 1))) = FULFILLED
  ∧ result_of 0 (apply_settle 0 (alloc empty_world) (Complete (VNum 1))) = VNum 1
  ∧ fold_left (apply_settle 0) [Fail (VStr "late"); Complete (VNum 2)]
      (apply_settle 0 (alloc empty_world) (Complete (VNum 1)))
    = apply_settle 0 (alloc empty_world) (Complete (VNum 1)).
Proof.
  destruct (first_settlement_wins sample_host 0 (alloc empty_world)
              (Complete (VNum 1)) [Fail (VStr "late"); Complete (VNum 2)])
    as (H1 & H2 & H3 & _).
  - simpl. lia.
  - reflexivity.
  - split; [exact H1 | split; [exact H2 | exact H3]].
Defined.

(** ** The constructor *)

Lemma heap_alloc w : length (heap (alloc w)) = S (length (heap w)).
Proof. unfold alloc; simpl. rewrite length_app. simpl. lia. Qed.

(** C4, as the code has it: when the initializer raises, the constructor
    still returns the new promise and the raise goes no further; the promise
    is rejected with the raised error if it is still pending at that moment;
    if the initializer had completed or failed it before raising, that
    earlier settlement stands. *)
Theorem initializer_raise host fuel executor w error w1 :
  call host fuel executor VUndefined
    [VFun (FResolve (length (heap w))) []; VFun (FReject (length (heap w))) []]
    (alloc w) = Some (Throw error, w1) →
  call host (S fuel) (VFun FNew []) VUndefined [executor] w =
    Some (Normal (VPromise (length (heap w))), _reject (length (heap w)) error w1)
  ∧ (state_of (length (heap w)) w1 = PENDING →
     state_of (length (heap w)) (_reject (length (heap w)) error w1) = REJECTED
     ∧ result_of (length (heap w)) (_reject (length (heap w)) error w1) = error)
  ∧ (state_of (length (heap w)) w1 ≠ PENDING →
     _reject (length (heap w)) error w1 = w1).
Proof.
  intros Hex. split_and!.
  - simpl. unfold MyPromise_new, arg; simpl. by rewrite Hex.
  - intros Hp.
    pose proof (ext_heap _ _ (call_extends _ _ _ _ _ _ _ _ Hex)) as Hheap.
    rewrite heap_alloc in Hheap.
    by destruct (changeState_outcome (length (heap w)) REJECTED error w1)
      as (? & ? & _); [lia| | |].
  - intros Hp. by apply changeState_settled.
Qed.

Lemma initializer_raise_witness :
  call sample_host 2 (VFun FNew []) VUndefined
    [VFun (FHost 2 [VStr "boom"]) []] empty_world
  = Some (Normal (VPromise 0), _reject 0 (VStr "boom") (alloc empty_world))
  ∧ state_of 0 (_reject 0 (VStr "boom") (alloc empty_world)) = REJECTED
  ∧ result_of 0 (_reject 0 (VStr "boom") (alloc empty_world)) = VStr "boom".
Proof.
  destruct (initializer_raise sample_host 1 (VFun (FHost 2 [VStr "boom"]) [])
              empty_world (VStr "boom") (alloc empty_world)) as (H1 & H2 & _).
  - reflexivity.
  - split; [exact H1 | exact (H2 eq_refl)].
Defined.

(** C4 fails as stated: this initializer completes the promise and then
    raises; the promise stays fulfilled with 1 and is not rejected with the
    raised error. *)
Lemma initializer_raise_counterexample :
  (∃ w1, call sample_host 2 (VFun (FHost 1 []) []) VUndefined
           [VFun (FResolve 0) []; VFun (FReject 0) []] (alloc empty_world)
         = Some (Throw (VStr "boom"), w1))
  ∧ ∃ w, call sample_host 3 (VFun FNew []) VUndefined
           [VFun (FHost 1 []) []] empty_world
         = Some (Normal (VPromise 0), w)
       ∧ state_of 0 w = FULFILLED
       ∧ result_of 0 w = VNum 1.
Proof. split; eexists; split_and?; reflexivity. Qed.

(** ** The combinators on an empty sequence *)

Lemma resolve_fresh p v w :
  p = length (heap w) →
  state_of p (_resolve p v (alloc w)) = FULFILLED
  ∧ result_of p (_resolve p v (alloc w)) = v.
Proof.
  intros ->. unfold _resolve.
  destruct (changeState_outcome (length (heap w)) FULFILLED v (alloc w))
    as (? & ? & _); try done.
  - rewrite heap_alloc. lia.
  - unfold state_of. rewrite get_promise_alloc. by apply state_of_missing.
Qed.

(** C2, as the code has it: [all] of an empty sequence returns a promise
    that is fulfilled at once, and its value is [undefined]. *)
Theorem all_empty_undefined host k w :
  ∃ w', call host (3 + k) (VFun FAll []) VUndefined [VArray []] w
        = Some (Normal (VPromise (length (heap w))), w')
      ∧ state_of (length (heap w)) w' = FULFILLED
      ∧ result_of (length (heap w)) w' = VUndefined.
Proof.
  eexists. split; [reflexivity|].
  by apply (resolve_fresh (length (heap w)) VUndefined (alloc_scope w)).
Qed.

(** C2 fails as stated: the value [all] of an empty sequence fulfils with is
    not an empty array. *)
Lemma all_empty_counterexample :
  ∃ w', call sample_host 3 (VFun FAll []) VUndefined [VArray []] empty_world
        = Some (Normal (VPromise 0), w')
      ∧ state_of 0 w' = FULFILLED
      ∧ result_of 0 w' = VUndefined
      ∧ result_of 0 w' ≠ VArray [].
Proof. eexists. split_and!; try reflexivity. discriminate. Qed.

(** C10: [allSettled] of an empty sequence maps nothing, hands the empty
    sequence to [all], and so returns a promise fulfilled with [undefined],
    not with an empty array. *)
Theorem allSettled_empty_undefined host k w :
  MyPromise_allSettled (call host (2 + k)) [] w = MyPromise_all (call host (2 + k)) [] w
  ∧ ∃ w', call host (3 + k) (VFun FAllSettled []) VUndefined [VArray []] w
          = Some (Normal (VPromise (length (heap w))), w')
        ∧ state_of (length (heap w)) w' = FULFILLED
        ∧ result_of (length (heap w)) w' = VUndefined
        ∧ result_of (length (heap w)) w' ≠ VArray [].
Proof.
  split; [reflexivity|].
  eexists. split; [reflexivity|].
  destruct (resolve_fresh (length (heap w)) VUndefined (alloc_scope w)) as [H1 H2];
    [done|].
  split_and!; [exact H1 | exact H2 |].
  intros Heq. pose proof (eq_trans (eq_sym H2) Heq). discriminate.
Qed.

(** ** The promise-like check *)



(** ** Sample stores *)

Lemma empty_world_ok d okrec : store_ok d okrec empty_world.
Proof. split; intros; by repeat constructor. Qed.

Lemma empty_world_fresh : fresh empty_world.
Proof. apply empty_world_ok. Qed.

Lemma settled_world_fresh st result :
  clean 1 result → fresh (settled_world st result).
Proof.
  intros Hr. unfold fresh, settled_world.
  rewrite heap_changeState. simpl.
  apply store_ok_changeState; [done|].
  apply store_ok_alloc. apply empty_world_ok.
Qed.

(** ** [race] of nothing *)

Lemma alloc_guarded p links w :
  fresh w → guarded p (length (heap w)) links (alloc w).
Proof.
  intros Hfresh. split; [|split].
  - unfold state_of. rewrite get_promise_alloc. by apply state_of_missing.
  - rewrite heap_alloc. lia.
  - apply store_ok_alloc. eapply store_ok_weaken; [|exact Hfresh]. intros; by left.
Qed.

(** C8: [race] of an empty sequence returns a pending promise, and it stays
    pending in every store that can be reached from there, whatever client
    code runs and whatever callbacks the scheduler runs: the executor of
    [race] handed its resolvers to nobody. *)
Theorem race_empty_never_settles host k w :
  honest host → fresh w →
  call host (2 + k) (VFun FRace []) VUndefined [VArray []] w
    = Some (Normal (VPromise (length (heap w))), alloc w)
  ∧ state_of (length (heap w)) (alloc w) = PENDING
  ∧ ∀ w', evolves host (length (heap w)) (alloc w) w' →
          state_of (length (heap w)) w' = PENDING.
Proof.
  intros Hhost Hfresh.
  pose proof (alloc_guarded (length (heap w)) [] w Hfresh) as Hg.
  split_and!.
  - reflexivity.
  - apply Hg.
  - intros w' Hev. by apply (guarded_waits host Hhost _ _ _ _ _ Hg Hev).
Qed.

Lemma race_empty_never_settles_witness :
  call sample_host 2 (VFun FRace []) VUndefined [VArray []] empty_world
    = Some (Normal (VPromise 0), alloc empty_world)
  ∧ state_of 0 (alloc empty_world) = PENDING
  ∧ ∀ w', evolves sample_host 0 (alloc empty_world) w' → state_of 0 w' = PENDING.
Proof.
  exact (race_empty_never_settles sample_host 0 empty_world
           sample_host_honest empty_world_fresh).
Defined.

(** ** When a record of [then] fires *)

Lemma waits_settled host p d links w w' q :
  waits host p d links w w' → state_of q w ≠ PENDING →
  state_of q w' = state_of q w ∧ result_of q w' = result_of q w.
Proof.
  intros Hw. induction Hw as [w|w s fuel c w' w'' Hs Hrun _ IH
                                |w t rest fuel c w' w'' Hq Hquiet Hrun _ IH];
    intros Hset.
  - done.
  - destruct (ext_settled _ _ (script_extends _ _ _ _ _ _ Hrun) q Hset) as [Hs1 Hr1].
    destruct IH as [Hs2 Hr2]; [congruence|]. split; congruence.
  - destruct (ext_settled _ _ (task_extends _ _ _ _ _ _ Hrun) q Hset) as [Hs1 Hr1].
    destruct IH as [Hs2 Hr2]; [by rewrite Hs1|].
    split; [by rewrite Hs2, Hs1 | by rewrite Hr2, Hr1].
Qed.

Lemma then_store_extends p onfulfilled onrejected w :
  extends w (then_store p onfulfilled onrejected w).
Proof.
  unfold then_store.
  eauto using extends_trans, extends_alloc, extends_pushHandler,
    extends_executeHandlers.
Qed.

Lemma then_store_micro p onfulfilled onrejected w :
  p < length (heap w) → state_of p w ≠ PENDING →
  microQueue (then_store p onfulfilled onrejected w) =
    microQueue w
    ++ map (Task p) (queue_of p w ++ then_records onfulfilled onrejected (length (heap w))).
Proof.
  intros Hp Hset. unfold then_store. cbv zeta.
  set (res := VFun (FResolve (length (heap w))) []).
  set (rej := VFun (FReject (length (heap w))) []).
  assert (p < length (heap (alloc w))) as Hp1 by (rewrite heap_alloc; lia).
  rewrite executeHandlers_settled.
  - unfold _pushHandler, queue_of. simpl.
    rewrite update_promise_compose, get_promise_update_eq by done.
    simpl. rewrite get_promise_alloc, <- app_assoc. done.
  - unfold _pushHandler. rewrite !state_of_update by done.
    unfold state_of. by rewrite get_promise_alloc.
Qed.

Lemma guarded_reject p d links error w :
  guarded p d links w →
  state_of d (_reject d error w) = REJECTED ∧ result_of d (_reject d error w) = error.
Proof.
  intros [Hpend [Hd _]].
  by destruct (changeState_outcome d REJECTED error w) as (? & ? & _).
Qed.

Lemma guarded_resolve p d links value w :
  guarded p d links w →
  state_of d (_resolve d value w) = FULFILLED ∧ result_of d (_resolve d value w) = value.
Proof.
  intros [Hpend [Hd _]].
  by destruct (changeState_outcome d FULFILLED value w) as (? & ? & _).
Qed.

Lemma then_records_inv onfulfilled onrejected d h :
  h ∈ then_records onfulfilled onrejected d →
  h = Handler onfulfilled FULFILLED (VFun (FResolve d) []) (VFun (FReject d) [])
  ∨ h = Handler onrejected REJECTED (VFun (FResolve d) []) (VFun (FReject d) []).
Proof.
  unfold then_records. rewrite !elem_of_cons, elem_of_nil. tauto.
Qed.

(** C5: [then] itself returns normally.  From then on, until one of its two
    records runs its continuation, the promise [d] it returned is pending and
    out of every client's reach; and when the scheduler runs the record whose
    state matches the receiver's and the continuation raises, that callback
    ends normally and leaves [d] rejected with the raised error. *)
Theorem then_continuation_raise host k p onfulfilled onrejected w :
  honest host → fresh w → p < length (heap w) →
  clean (length (heap w)) onfulfilled → clean (length (heap w)) onrejected →
  call host (2 + k) (VFun FThen []) (VPromise p) [onfulfilled; onrejected] w
    = Some (Normal (VPromise (length (heap w))), then_store p onfulfilled onrejected w)
  ∧ ∀ w' h rest fuel error w'',
      waits host p (length (heap w))
        (then_records onfulfilled onrejected (length (heap w)))
        (then_store p onfulfilled onrejected w) w' →
      microQueue w' = Task p h :: rest →
      h ∈ then_records onfulfilled onrejected (length (heap w)) →
      state h = state_of p w' →
      is_function (executor h) = true →
      call host fuel (executor h) VUndefined [result_of p w'] (set_micro rest w')
        = Some (Throw error, w'') →
      handler_task (call host fuel) (Task p h) (set_micro rest w')
        = Some (Normal VUndefined, _reject (length (heap w)) error w'')
      ∧ state_of (length (heap w)) (_reject (length (heap w)) error w'') = REJECTED
      ∧ result_of (length (heap w)) (_reject (length (heap w)) error w'') = error.
Proof.
  intros Hhost Hfresh Hp Hf Hr. split; [apply then_call|].
  intros w' h rest fuel error w'' Hwaits Hq Hin Hstate Hfun Hcall.
  set (d := length (heap w)) in *.
  pose proof (then_store_guarded p onfulfilled onrejected w Hfresh Hp) as Hg.
  apply (guarded_waits host Hhost _ _ _ _ _ Hg) in Hwaits.
  destruct (guarded_pop _ _ _ _ _ _ Hq Hwaits) as [Hg0 _].
  assert (clean d (executor h)) as Hex.
  { destruct (then_records_inv _ _ _ _ Hin) as [-> | ->]; done. }
  destruct (guarded_call host Hhost p d (then_records onfulfilled onrejected d)
              fuel (executor h) VUndefined
              [result_of p w'] (set_micro rest w') (Throw error) w'')
    as [Herr Hg'']; try done.
  { repeat constructor. apply Hg0. }
  split; [|by eapply guarded_reject].
  unfold handler_task; simpl.
  change (state_of p (set_micro rest w')) with (state_of p w').
  change (result_of p (set_micro rest w')) with (result_of p w').
  rewrite <- Hstate, status_eqb_refl, Hfun. simpl.
  unfold try_catch, bind. rewrite Hcall.
  assert (reject h = VFun (FReject d) []) as ->.
  { destruct (then_records_inv _ _ _ _ Hin) as [-> | ->]; done. }
  destruct fuel as [|n]; [done|]. reflexivity.
Qed.

Lemma then_continuation_raise_witness :
  call sample_host 2 (VFun FThen []) (VPromise 0) [sample_raiser; VUndefined]
    (settled_world FULFILLED (VNum 5))
  = Some (Normal (VPromise 1),
          then_store 0 sample_raiser VUndefined (settled_world FULFILLED (VNum 5)))
  ∧ ∃ w, run_next sample_host 1
           (then_store 0 sample_raiser VUndefined (settled_world FULFILLED (VNum 5)))
         = Some (Normal VUndefined, w)
       ∧ state_of 1 w = REJECTED
       ∧ result_of 1 w = VStr "boom".
Proof.
  destruct (then_continuation_raise sample_host 0 0 sample_raiser VUndefined
              (settled_world FULFILLED (VNum 5)) sample_host_honest
              (settled_world_fresh FULFILLED (VNum 5) eq_refl))
    as [Hcall Hfire].
  - vm_compute. lia.
  - reflexivity.
  - reflexivity.
  - split; [exact Hcall|].
    pose (w1 := then_store 0 sample_raiser VUndefined (settled_world FULFILLED (VNum 5))).
    pose (rest := [Task 0 (Handler VUndefined REJECTED
                             (VFun (FResolve 1) []) (VFun (FReject 1) []))]).
    destruct (Hfire w1
                (Handler sample_raiser FULFILLED (VFun (FResolve 1) []) (VFun (FReject 1) []))
                rest 1 (VStr "boom") (set_micro rest w1) (waits_refl _ _ _ _ w1))
      as (Hrun & Hstate & Hresult).
    + reflexivity.
    + apply elem_of_cons. by left.
    + reflexivity.
    + reflexivity.
    + reflexivity.
    + eexists. split; [exact Hrun|]. split; [exact Hstate | exact Hresult].
Defined.

(** C6: [then] called on a settled promise with two arguments that are not
    functions returns a pending promise [d] and schedules its two records at
    once.  Whatever runs before them, when the scheduler reaches the record
    whose state matches the receiver's, that callback ends normally and
    leaves [d] with the state and the result of the receiver. *)
Theorem then_without_continuations host k p onfulfilled onrejected w :
  honest host → fresh w → p < length (heap w) → state_of p w ≠ PENDING →
  is_function onfulfilled = false → is_function onrejected = false →
  call host (2 + k) (VFun FThen []) (VPromise p) [onfulfilled; onrejected] w
    = Some (Normal (VPromise (length (heap w))), then_store p onfulfilled onrejected w)
  ∧ state_of (length (heap w)) (then_store p onfulfilled onrejected w) = PENDING
  ∧ microQueue (then_store p onfulfilled onrejected w)
    = microQueue w
      ++ map (Task p)
           (queue_of p w ++ then_records onfulfilled onrejected (length (heap w)))
  ∧ ∀ w' h rest n,
      waits host p (length (heap w))
        (then_records onfulfilled onrejected (length (heap w)))
        (then_store p onfulfilled onrejected w) w' →
      microQueue w' = Task p h :: rest →
      h ∈ then_records onfulfilled onrejected (length (heap w)) →
      state h = state_of p w' →
      ∃ w'',
        handler_task (call host (S n)) (Task p h) (set_micro rest w')
          = Some (Normal VUndefined, w'')
        ∧ state_of (length (heap w)) w'' = state_of p w
        ∧ result_of (length (heap w)) w'' = result_of p w.
Proof.
  intros Hhost Hfresh Hp Hset Hf Hr.
  set (d := length (heap w)) in *.
  pose proof (then_store_guarded p onfulfilled onrejected w Hfresh Hp) as Hg.
  split_and!; [apply then_call | apply Hg | by apply then_store_micro |].
  intros w' h rest n Hwaits Hq Hin Hstate.
  destruct (waits_settled _ _ _ _ _ _ p Hwaits) as [Hs' Hr'].
  { by rewrite (proj1 (ext_settled _ _ (then_store_extends p onfulfilled onrejected w) p Hset)). }
  destruct (ext_settled _ _ (then_store_extends p onfulfilled onrejected w) p Hset)
    as [Hs0 Hr0].
  apply (guarded_waits host Hhost _ _ _ _ _ Hg) in Hwaits.
  destruct (guarded_pop _ _ _ _ _ _ Hq Hwaits) as [Hg0 _].
  unfold handler_task; simpl.
  change (state_of p (set_micro rest w')) with (state_of p w').
  change (result_of p (set_micro rest w')) with (result_of p w').
  rewrite <- Hstate, status_eqb_refl. simpl.
  destruct (then_records_inv _ _ _ _ Hin) as [-> | ->]; simpl in *.
  - rewrite Hf. simpl. eexists. split; [reflexivity|].
    destruct (guarded_resolve _ _ _ (result_of p w') _ Hg0) as [H1 H2].
    split; (etrans; [first [exact H1 | exact H2]|congruence]).
  - rewrite Hr. simpl. eexists. split; [reflexivity|].
    destruct (guarded_reject _ _ _ (result_of p w') _ Hg0) as [H1 H2].
    split; (etrans; [first [exact H1 | exact H2]|congruence]).
Qed.

Lemma then_without_continuations_witness :
  call sample_host 2 (VFun FThen []) (VPromise 0) [VUndefined; VUndefined]
    (settled_world REJECTED (VStr "no"))
  = Some (Normal (VPromise 1),
          then_store 0 VUndefined VUndefined (settled_world REJECTED (VStr "no")))
  ∧ ∃ w1 w2,
      run_next sample_host 1
        (then_store 0 VUndefined VUndefined (settled_world REJECTED (VStr "no")))
      = Some (Normal VUndefined, w1)
      ∧ run_next sample_host 1 w1 = Some (Normal VUndefined, w2)
      ∧ state_of 1 w2 = REJECTED
      ∧ result_of 1 w2 = VStr "no".
Proof.
  destruct (then_without_continuations sample_host 0 0 VUndefined VUndefined
              (settled_world REJECTED (VStr "no")) sample_host_honest
              (settled_world_fresh REJECTED (VStr "no") eq_refl))
    as (Hcall & _ & _ & Hfire).
  - vm_compute. lia.
  - discriminate.
  - reflexivity.
  - reflexivity.
  - split; [exact Hcall|].
    pose (w0 := then_store 0 VUndefined VUndefined (settled_world REJECTED (VStr "no"))).
    pose (h1 := Handler VUndefined FULFILLED (VFun (FResolve 1) []) (VFun (FReject 1) [])).
    pose (h2 := Handler VUndefined REJECTED (VFun (FResolve 1) []) (VFun (FReject 1) [])).
    pose (w1 := set_micro [Task 0 h2] w0).
    destruct (Hfire w1 h2 [] 0) as (w2 & Hrun & Hstate & Hresult).
    + apply (waits_task _ _ _ _ w0 (Task 0 h1) [Task 0 h2] 1 (Normal VUndefined) w1 w1);
        [reflexivity| |reflexivity|apply waits_refl].
      intros (_ & _ & Hst). discriminate Hst.
    + reflexivity.
    + apply elem_of_cons. right. apply elem_of_cons. by left.
    + reflexivity.
    + exists w1, w2. split; [reflexivity|].
      split; [exact Hrun|]. split; [exact Hstate | exact Hresult].
Defined.

(** ** [finally] *)



(** ** Sample runs *)

Example all_of_values :
  outcome (run_program sample_host 9 20
             (Invoke (VFun FAll []) VUndefined [VArray [VNum 3; thenable; VStr "x"]]
                (λ c, match c with Normal v => Return v | Throw e => Raise e end)))
  = Some (FULFILLED, VArray [VNum 3; VNum 7; VStr "x"]).
Proof. reflexivity. Qed.

Example all_with_rejection :
  outcome (run_program sample_host 9 20 (sample_combine FAll))
  = Some (REJECTED, VStr "no").
Proof. reflexivity. Qed.

Example allSettled_with_rejection :
  outcome (run_program sample_host 9 40 (sample_combine FAllSettled))
  = Some (FULFILLED,
          VArray [VObject [("status", VStr "fulfilled"); ("value", VNum 3)];
                  VObject [("status", VStr "rejected"); ("reason", VStr "no")];
                  VObject [("status", VStr "fulfilled"); ("value", VNum 7)]]).
Proof. reflexivity. Qed.

Example race_first_settled :
  outcome (run_program sample_host 9 20 (sample_combine FRace))
  = Some (FULFILLED, VNum 3).
Proof. reflexivity. Qed.

Example chain_forwards_rejection :
  outcome (run_program sample_host 9 20 sample_chain)
  = Some (REJECTED, VStr "boom").
Proof. reflexivity. Qed.

(** ** Further properties of the constructor *)





Lemma changeState_fresh st v w :
  st ≠ PENDING →
  state_of (length (heap w)) (_changeState (length (heap w)) st v (alloc w)) = st
  ∧ result_of (length (heap w)) (_changeState (length (heap w)) st v (alloc w)) = v
  ∧ microQueue (_changeState (length (heap w)) st v (alloc w)) = microQueue w
  ∧ scopes (_changeState (length (heap w)) st v (alloc w)) = scopes w
  ∧ length (heap (_changeState (length (heap w)) st v (alloc w))) = S (length (heap w))
  ∧ ∀ q, q ≠ length (heap w) →
         get_promise q (_changeState (length (heap w)) st v (alloc w)) = get_promise q w.
Proof.
  intros Hst.
  assert (length (heap w) < length (heap (alloc w))) as Hlt by (rewrite heap_alloc; lia).
  assert (state_of (length (heap w)) (alloc w) = PENDING) as Hp.
  { unfold state_of. rewrite get_promise_alloc. by apply state_of_missing. }
  destruct (changeState_outcome (length (heap w)) st v (alloc w)) as (H1 & H2 & _ & H4);
    try done.
  split_and!; try done.
  - rewrite H4. unfold queue_of. rewrite get_promise_alloc. unfold get_promise.
    rewrite lookup_ge_None_2 by done. simpl. by rewrite app_nil_r.
  - by rewrite changeState_pending.
  - by rewrite heap_changeState, heap_alloc.
  - intros q Hq. rewrite changeState_pending by done.
    change (get_promise q (set_micro ?m ?w')) with (get_promise q w').
    rewrite get_promise_update_ne by done. apply get_promise_alloc.
Qed.

(** ** Further properties of settlement and of the handler queue *)

(** X3: [_reject] is the mirror image of [_resolve]: on a pending promise it
    stores the reason as it is, promise-like or not, moves to [REJECTED],
    hands the queued records to the scheduler in the order they were
    attached and leaves every other promise alone. *)
Theorem reject_stores_reason p reason w :
  p < length (heap w) → state_of p w = PENDING →
  state_of p (_reject p reason w) = REJECTED
  ∧ result_of p (_reject p reason w) = reason
  ∧ queue_of p (_reject p reason w) = []
  ∧ microQueue (_reject p reason w) = microQueue w ++ map (Task p) (queue_of p w)
  ∧ (∀ q, q ≠ p → get_promise q (_reject p reason w) = get_promise q w)
  ∧ scopes (_reject p reason w) = scopes w.
Proof.
  intros Hlt Hp. unfold _reject.
  destruct (changeState_outcome p REJECTED reason w) as (H1 & H2 & H3 & H4); try done.
  split_and!; try done.
  - intros q Hq. rewrite changeState_pending by done.
    change (get_promise q (set_micro ?m ?w')) with (get_promise q w').
    by rewrite get_promise_update_ne.
  - by rewrite changeState_pending.
Qed.

Lemma reject_stores_reason_witness :
  state_of 0 (_reject 0 thenable (alloc empty_world)) = REJECTED
  ∧ result_of 0 (_reject 0 thenable (alloc empty_world)) = thenable.
Proof.
  destruct (reject_stores_reason 0 thenable (alloc empty_world)) as (H1 & H2 & _).
  - simpl. lia.
  - reflexivity.
  - split; [exact H1 | exact H2].
Defined.

(** X4: draining twice is draining once: [_executeHandlers] empties the
    queue it schedules, so no record is ever scheduled a second time. *)
Theorem executeHandlers_idempotent p w :
  _executeHandlers p (_executeHandlers p w) = _executeHandlers p w
  ∧ (state_of p w ≠ PENDING → queue_of p (_executeHandlers p w) = []).
Proof.
  destruct (decide (state_of p w = PENDING)) as [Hp|Hp].
  { split; [|done]. unfold _executeHandlers at 2. rewrite Hp. simpl.
    unfold _executeHandlers. by rewrite Hp. }
  assert (queue_of p (_executeHandlers p w) = []) as Hq.
  { rewrite executeHandlers_settled by done. unfold queue_of.
    change (get_promise p (set_micro ?m ?w')) with (get_promise p w').
    rewrite get_promise_update. case_decide as H; [done|].
    unfold get_promise. rewrite lookup_ge_None_2; [done|].
    destruct (decide (p < length (heap w))); [by destruct H | lia]. }
  split; [|done].
  assert (state_of p (_executeHandlers p w) ≠ PENDING) as Hp'.
  { by rewrite (proj1 (ext_settled _ _ (extends_executeHandlers p w) p Hp)). }
  rewrite (executeHandlers_settled p (_executeHandlers p w) Hp'), Hq.
  simpl. rewrite app_nil_r.
  rewrite update_promise_id.
  - by destruct (_executeHandlers p w).
  - unfold queue_of in Hq. destruct (get_promise p (_executeHandlers p w)).
    simpl in *. by subst.
Qed.

Lemma then_store_pending p onfulfilled onrejected w :
  p < length (heap w) → state_of p w = PENDING →
  microQueue (then_store p onfulfilled onrejected w) = microQueue w
  ∧ queue_of p (then_store p onfulfilled onrejected w)
    = queue_of p w ++ then_records onfulfilled onrejected (length (heap w))
  ∧ state_of p (then_store p onfulfilled onrejected w) = PENDING
  ∧ state_of (length (heap w)) (then_store p onfulfilled onrejected w) = PENDING
  ∧ length (heap (then_store p onfulfilled onrejected w)) = S (length (heap w)).
Proof.
  intros Hlt Hp.
  assert (p < length (heap (alloc w))) as Hlt' by (rewrite heap_alloc; lia).
  split_and!; [| | | |apply heap_then_store].
  all: unfold then_store; cbv zeta.
  all: set (res := VFun (FResolve (length (heap w))) []).
  all: set (rej := VFun (FReject (length (heap w))) []).
  all: set (w2 := _pushHandler p onrejected REJECTED res rej
                    (_pushHandler p onfulfilled FULFILLED res rej (alloc w))).
  all: assert (∀ q, state_of q w2 = state_of q w) as Hstate
         by (intros q; unfold w2, _pushHandler; rewrite !state_of_update by done;
             unfold state_of; by rewrite get_promise_alloc).
  all: assert (_executeHandlers p w2 = w2) as ->
         by (unfold _executeHandlers; by rewrite Hstate, Hp).
  - reflexivity.
  - unfold w2, _pushHandler, queue_of.
    rewrite update_promise_compose, get_promise_update_eq by done.
    simpl. by rewrite get_promise_alloc, <- app_assoc.
  - by rewrite Hstate.
  - rewrite Hstate. by apply state_of_missing.
Qed.

(** X5: [then] on a pending promise schedules nothing: it returns a new
    pending promise and appends its two records, fulfilment first, behind
    the records already waiting on the receiver. *)
Theorem then_on_pending host k p onfulfilled onrejected w :
  p < length (heap w) → state_of p w = PENDING →
  call host (2 + k) (VFun FThen []) (VPromise p) [onfulfilled; onrejected] w
    = Some (Normal (VPromise (length (heap w))), then_store p onfulfilled onrejected w)
  ∧ microQueue (then_store p onfulfilled onrejected w) = microQueue w
  ∧ queue_of p (then_store p onfulfilled onrejected w)
    = queue_of p w ++ then_records onfulfilled onrejected (length (heap w))
  ∧ state_of p (then_store p onfulfilled onrejected w) = PENDING
  ∧ state_of (length (heap w)) (then_store p onfulfilled onrejected w) = PENDING.
Proof.
  intros Hlt Hp. split; [reflexivity|].
  by destruct (then_store_pending p onfulfilled onrejected w Hlt Hp)
    as (? & ? & ? & ? & _).
Qed.

Lemma then_on_pending_witness :
  microQueue (then_store 0 sample_raiser VUndefined (alloc empty_world)) = []
  ∧ queue_of 0 (then_store 0 sample_raiser VUndefined (alloc empty_world))
    = then_records sample_raiser VUndefined 1.
Proof.
  destruct (then_on_pending sample_host 0 0 sample_raiser VUndefined (alloc empty_world))
    as (_ & H1 & H2 & _).
  - simpl. lia.
  - reflexivity.
  - split; [exact H1 | exact H2].
Defined.

(** X6: no call of any function value, by any client code, runs, drops or
    reorders a scheduled callback: the queue before the call is a prefix of
    the queue after it; and no promise is deallocated. *)
Theorem calls_only_enqueue host fuel f this args w c w' :
  call host fuel f this args w = Some (c, w') →
  (∃ extra, microQueue w' = microQueue w ++ extra)
  ∧ length (heap w) ≤ length (heap w').
Proof.
  intros Hcall. destruct (call_extends _ _ _ _ _ _ _ _ Hcall) as [H1 _ H3].
  by split.
Qed.

Lemma calls_only_enqueue_witness :
  (∃ extra,
     microQueue (then_store 0 VUndefined VUndefined (settled_world FULFILLED (VNum 5)))
     = microQueue (settled_world FULFILLED (VNum 5)) ++ extra)
  ∧ length (heap (settled_world FULFILLED (VNum 5)))
    ≤ length (heap (then_store 0 VUndefined VUndefined (settled_world FULFILLED (VNum 5)))).
Proof.
  exact (calls_only_enqueue sample_host 2 (VFun FThen []) (VPromise 0)
           [VUndefined; VUndefined] (settled_world FULFILLED (VNum 5))
           (Normal (VPromise 1))
           (then_store 0 VUndefined VUndefined (settled_world FULFILLED (VNum 5)))
           eq_refl).
Defined.

(** ** [MyPromise.resolve] and [MyPromise.reject] *)

(** X7: [MyPromise.resolve] of a value that is not promise-like ([null],
    a primitive, a function, an object without a callable [then]) returns a
    new promise that is already fulfilled with that value, and schedules
    nothing. *)
Theorem static_resolve_plain host k value w :
  isPromise value = false →
  call host (3 + k) (VFun FStaticResolve []) VUndefined [value] w
    = Some (Normal (VPromise (length (heap w))),
            _resolve (length (heap w)) value (alloc w))
  ∧ state_of (length (heap w)) (_resolve (length (heap w)) value (alloc w)) = FULFILLED
  ∧ result_of (length (heap w)) (_resolve (length (heap w)) value (alloc w)) = value
  ∧ microQueue (_resolve (length (heap w)) value (alloc w)) = microQueue w.
Proof.
  intros Hplain. split.
  - change (3 + k) with (S (S (S k))).
    cbn [call call_body]. unfold arg; cbn [lookup list_lookup default].
    unfold MyPromise_resolve, MyPromise_new.
    cbn [call call_body]. unfold arg; cbn [lookup list_lookup default].
    unfold resolve_executor, bind, id. rewrite Hplain. reflexivity.
  - unfold _resolve.
    by destruct (changeState_fresh FULFILLED value w) as (? & ? & ? & _).
Qed.

Lemma static_resolve_plain_witness :
  call sample_host 3 (VFun FStaticResolve []) VUndefined [VNull] empty_world
    = Some (Normal (VPromise 0), _resolve 0 VNull (alloc empty_world))
  ∧ state_of 0 (_resolve 0 VNull (alloc empty_world)) = FULFILLED
  ∧ result_of 0 (_resolve 0 VNull (alloc empty_world)) = VNull
  ∧ microQueue (_resolve 0 VNull (alloc empty_world)) = [].
Proof.
  exact (static_resolve_plain sample_host 0 VNull empty_world eq_refl).
Defined.

(** X8: [MyPromise.reject] never adopts: the promise it returns is already
    rejected with the reason as given, also when the reason is promise-like,
    and nothing is scheduled. *)
Theorem static_reject_immediate host k reason w :
  call host (3 + k) (VFun FStaticReject []) VUndefined [reason] w
    = Some (Normal (VPromise (length (heap w))),
            _reject (length (heap w)) reason (alloc w))
  ∧ state_of (length (heap w)) (_reject (length (heap w)) reason (alloc w)) = REJECTED
  ∧ result_of (length (heap w)) (_reject (length (heap w)) reason (alloc w)) = reason
  ∧ microQueue (_reject (length (heap w)) reason (alloc w)) = microQueue w.
Proof.
  split; [reflexivity|]. unfold _reject.
  by destruct (changeState_fresh REJECTED reason w) as (? & ? & ? & _).
Qed.

(** ** Further properties of the records of [then] *)

Lemma fire_guarded host p d links w1 w' t rest :
  honest host → guarded p d links w1 → waits host p d links w1 w' →
  microQueue w' = t :: rest →
  guarded p d links (set_micro rest w').
Proof.
  intros Hhost Hg Hwaits Hq.
  apply (guarded_waits host Hhost _ _ _ _ _ Hg) in Hwaits.
  by destruct (guarded_pop _ _ _ _ _ _ Hq Hwaits) as [Hg0 _].
Qed.

(** X9: when the record of [then] whose state matches the receiver's runs
    and its continuation returns a value that is not promise-like, the
    promise [d] that [then] returned is fulfilled with that value in the same
    callback; this holds for the rejection continuation too, so a handled
    rejection turns into a fulfilment. *)
Theorem then_continuation_returns host p onfulfilled onrejected w
    w' h rest fuel v w'' :
  honest host → fresh w → p < length (heap w) →
  clean (length (heap w)) onfulfilled → clean (length (heap w)) onrejected →
  waits host p (length (heap w))
    (then_records onfulfilled onrejected (length (heap w)))
    (then_store p onfulfilled onrejected w) w' →
  microQueue w' = Task p h :: rest →
  h ∈ then_records onfulfilled onrejected (length (heap w)) →
  state h = state_of p w' →
  is_function (executor h) = true →
  call host fuel (executor h) VUndefined [result_of p w'] (set_micro rest w')
    = Some (Normal v, w'') →
  isPromise v = false →
  handler_task (call host fuel) (Task p h) (set_micro rest w')
    = Some (Normal VUndefined, _resolve (length (heap w)) v w'')
  ∧ state_of (length (heap w)) (_resolve (length (heap w)) v w'') = FULFILLED
  ∧ result_of (length (heap w)) (_resolve (length (heap w)) v w'') = v.
Proof.
  intros Hhost Hfresh Hp Hf Hr Hwaits Hq Hin Hstate Hfun Hcall Hplain.
  set (d := length (heap w)) in *.
  pose proof (fire_guarded host p d _ _ _ _ _ Hhost
                (then_store_guarded p onfulfilled onrejected w Hfresh Hp) Hwaits Hq)
    as Hg0.
  assert (clean d (executor h)) as Hex.
  { destruct (then_records_inv _ _ _ _ Hin) as [-> | ->]; done. }
  destruct (guarded_call host Hhost p d (then_records onfulfilled onrejected d)
              fuel (executor h) VUndefined
              [result_of p w'] (set_micro rest w') (Normal v) w'')
    as [_ Hg'']; try done.
  { repeat constructor. apply Hg0. }
  split; [|by eapply guarded_resolve].
  unfold handler_task; simpl.
  change (state_of p (set_micro rest w')) with (state_of p w').
  change (result_of p (set_micro rest w')) with (result_of p w').
  rewrite <- Hstate, status_eqb_refl, Hfun. simpl.
  unfold try_catch, bind. rewrite Hcall, Hplain.
  assert (resolve h = VFun (FResolve d) []) as ->.
  { destruct (then_records_inv _ _ _ _ Hin) as [-> | ->]; done. }
  destruct fuel as [|n]; [done|]. reflexivity.
Qed.

Lemma then_continuation_returns_witness :
  ∃ w, run_next sample_host 1
         (then_store 0 VUndefined (VFun (FHost 4 [VNum 9]) [])
            (settled_world REJECTED (VStr "no")))
       = Some (Normal VUndefined, w)
     ∧ run_next sample_host 1 w
       = Some (Normal VUndefined,
               _resolve 1 (VNum 9)
                 (set_micro [] (then_store 0 VUndefined (VFun (FHost 4 [VNum 9]) [])
                                  (settled_world REJECTED (VStr "no")))))
     ∧ state_of 1
         (_resolve 1 (VNum 9)
            (set_micro [] (then_store 0 VUndefined (VFun (FHost 4 [VNum 9]) [])
                             (settled_world REJECTED (VStr "no")))))
       = FULFILLED.
Proof.
  pose (recover := VFun (FHost 4 [VNum 9]) []).
  pose (w0 := then_store 0 VUndefined recover (settled_world REJECTED (VStr "no"))).
  pose (h1 := Handler VUndefined FULFILLED (VFun (FResolve 1) []) (VFun (FReject 1) [])).
  pose (h2 := Handler recover REJECTED (VFun (FResolve 1) []) (VFun (FReject 1) [])).
  pose (w1 := set_micro [Task 0 h2] w0).
  destruct (then_continuation_returns sample_host 0 VUndefined recover
              (settled_world REJECTED (VStr "no")) w1 h2 [] 1 (VNum 9)
              (set_micro [] w0) sample_host_honest
              (settled_world_fresh REJECTED (VStr "no") eq_refl))
    as (Hrun & Hstate & _).
  - vm_compute. lia.
  - reflexivity.
  - reflexivity.
  - apply (waits_task _ _ _ _ w0 (Task 0 h1) [Task 0 h2] 1 (Normal VUndefined) w1 w1);
      [reflexivity| |reflexivity|apply waits_refl].
    intros (_ & _ & Hst). discriminate Hst.
  - reflexivity.
  - apply elem_of_cons. right. apply elem_of_cons. by left.
  - reflexivity.
  - reflexivity.
  - reflexivity.
  - reflexivity.
  - exists w1. split; [reflexivity|]. split; [exact Hrun | exact Hstate].
Defined.

Lemma then_store_outcome x q onfulfilled onrejected w :
  state_of x (then_store q onfulfilled onrejected w) = state_of x w
  ∧ result_of x (then_store q onfulfilled onrejected w) = result_of x w.
Proof.
  unfold then_store. cbv zeta.
  eapply same_outcome_trans; [|apply same_outcome_executeHandlers].
  eapply same_outcome_trans; [|apply same_outcome_update; by intros [] _].
  eapply same_outcome_trans; [|apply same_outcome_update; by intros [] _].
  unfold same_outcome, state_of, result_of. by rewrite get_promise_alloc.
Qed.

(** X10: when the continuation of the record that runs returns a
    [MyPromise], the callback does not settle the promise [d] that [then]
    returned: it calls [then] on the returned promise with the two resolvers
    of [d] as continuations, and [d] is still pending afterwards. *)
Theorem then_continuation_returns_promise host p onfulfilled onrejected w
    w' h rest n q w'' :
  honest host → fresh w → p < length (heap w) →
  clean (length (heap w)) onfulfilled → clean (length (heap w)) onrejected →
  waits host p (length (heap w))
    (then_records onfulfilled onrejected (length (heap w)))
    (then_store p onfulfilled onrejected w) w' →
  microQueue w' = Task p h :: rest →
  h ∈ then_records onfulfilled onrejected (length (heap w)) →
  state h = state_of p w' →
  is_function (executor h) = true →
  call host (S (S n)) (executor h) VUndefined [result_of p w'] (set_micro rest w')
    = Some (Normal (VPromise q), w'') →
  handler_task (call host (S (S n))) (Task p h) (set_micro rest w')
    = Some (Normal VUndefined,
            then_store q (VFun (FResolve (length (heap w))) [])
              (VFun (FReject (length (heap w))) []) w'')
  ∧ state_of (length (heap w))
      (then_store q (VFun (FResolve (length (heap w))) [])
         (VFun (FReject (length (heap w))) []) w'')
    = PENDING.
Proof.
  intros Hhost Hfresh Hp Hf Hr Hwaits Hq Hin Hstate Hfun Hcall.
  set (d := length (heap w)) in *.
  pose proof (fire_guarded host p d _ _ _ _ _ Hhost
                (then_store_guarded p onfulfilled onrejected w Hfresh Hp) Hwaits Hq)
    as Hg0.
  assert (clean d (executor h)) as Hex.
  { destruct (then_records_inv _ _ _ _ Hin) as [-> | ->]; done. }
  destruct (guarded_call host Hhost p d (then_records onfulfilled onrejected d)
              (S (S n)) (executor h) VUndefined
              [result_of p w'] (set_micro rest w') (Normal (VPromise q)) w'')
    as [_ Hg'']; try done.
  { repeat constructor. apply Hg0. }
  split.
  - unfold handler_task; cbn [owner job].
    change (state_of p (set_micro rest w')) with (state_of p w').
    change (result_of p (set_micro rest w')) with (result_of p w').
    rewrite <- Hstate, status_eqb_refl, Hfun. cbn [negb].
    unfold try_catch, bind. rewrite Hcall.
    assert (resolve h = VFun (FResolve d) [] ∧ reject h = VFun (FReject d) [])
      as [-> ->].
    { destruct (then_records_inv _ _ _ _ Hin) as [-> | ->]; done. }
    reflexivity.
  - rewrite (proj1 (then_store_outcome d q _ _ w'')). apply Hg''.
Qed.

Lemma then_continuation_returns_promise_witness :
  run_next sample_host 2
    (then_store 0 (VFun (FHost 4 [VPromise 0]) []) VUndefined
       (settled_world FULFILLED (VNum 5)))
  = Some (Normal VUndefined,
          then_store 0 (VFun (FResolve 1) []) (VFun (FReject 1) [])
            (set_micro
               [Task 0 (Handler VUndefined REJECTED
                          (VFun (FResolve 1) []) (VFun (FReject 1) []))]
               (then_store 0 (VFun (FHost 4 [VPromise 0]) []) VUndefined
                  (settled_world FULFILLED (VNum 5)))))
  ∧ state_of 1
      (then_store 0 (VFun (FResolve 1) []) (VFun (FReject 1) [])
         (set_micro
            [Task 0 (Handler VUndefined REJECTED
                       (VFun (FResolve 1) []) (VFun (FReject 1) []))]
            (then_store 0 (VFun (FHost 4 [VPromise 0]) []) VUndefined
               (settled_world FULFILLED (VNum 5)))))
    = PENDING.
Proof.
  pose (same := VFun (FHost 4 [VPromise 0]) []).
  pose (w0 := then_store 0 same VUndefined (settled_world FULFILLED (VNum 5))).
  pose (h1 := Handler same FULFILLED (VFun (FResolve 1) []) (VFun (FReject 1) [])).
  pose (h2 := Handler VUndefined REJECTED (VFun (FResolve 1) []) (VFun (FReject 1) [])).
  refine (then_continuation_returns_promise sample_host 0 same VUndefined
            (settled_world FULFILLED (VNum 5)) w0 h1 [Task 0 h2] 0 0
            (set_micro [Task 0 h2] w0) sample_host_honest
            (settled_world_fresh FULFILLED (VNum 5) eq_refl)
            _ _ _ (waits_refl _ _ _ _ w0) _ _ _ _ _).
  - vm_compute. lia.
  - reflexivity.
  - reflexivity.
  - reflexivity.
  - apply elem_of_cons. by left.
  - reflexivity.
  - reflexivity.
  - reflexivity.
Defined.

(** X11: when [onfinally] itself raises, its error replaces the outcome of
    the receiver: whichever of the two records of [finally] runs, the
    callback ends normally and the promise [finally] returned is rejected
    with the error [onfinally] raised. *)
Theorem finally_raise_shadows host p onfinally w w' h rest fuel error w'' :
  honest host → fresh w → p < length (heap w) →
  clean (length (heap w)) onfinally → is_function onfinally = true →
  waits host p (length (heap w))
    (then_records (VFun (FFinallyOk onfinally) []) (VFun (FFinallyErr onfinally) [])
       (length (heap w)))
    (then_store p (VFun (FFinallyOk onfinally) []) (VFun (FFinallyErr onfinally) []) w)
    w' →
  microQueue w' = Task p h :: rest →
  h ∈ then_records (VFun (FFinallyOk onfinally) []) (VFun (FFinallyErr onfinally) [])
        (length (heap w)) →
  state h = state_of p w' →
  call host fuel onfinally VUndefined [] (set_micro rest w') = Some (Throw error, w'') →
  handler_task (call host (S fuel)) (Task p h) (set_micro rest w')
    = Some (Normal VUndefined, _reject (length (heap w)) error w'')
  ∧ state_of (length (heap w)) (_reject (length (heap w)) error w'') = REJECTED
  ∧ result_of (length (heap w)) (_reject (length (heap w)) error w'') = error.
Proof.
  intros Hhost Hfresh Hp Hclean Hfun Hwaits Hq Hin Hstate Hcall.
  set (d := length (heap w)) in *.
  set (ok := VFun (FFinallyOk onfinally) []) in *.
  set (err := VFun (FFinallyErr onfinally) []) in *.
  pose proof (fire_guarded host p d _ _ _ _ _ Hhost
                (then_store_guarded p ok err w Hfresh Hp) Hwaits Hq) as Hg0.
  destruct (guarded_call host Hhost p d (then_records ok err d)
              fuel onfinally VUndefined [] (set_micro rest w') (Throw error) w'')
    as [_ Hg'']; try done.
  split; [|by eapply guarded_reject].
  assert (∀ v,
    call host (S fuel) ok VUndefined [v] (set_micro rest w') = Some (Throw error, w'')
    ∧ call host (S fuel) err VUndefined [v] (set_micro rest w') = Some (Throw error, w''))
    as Hwrap.
  { intros v. simpl. unfold bind, run_onfinally. by rewrite Hfun, Hcall. }
  unfold handler_task, try_catch, bind.
  cbn [owner job].
  change (state_of p (set_micro rest w')) with (state_of p w').
  change (result_of p (set_micro rest w')) with (result_of p w').
  rewrite <- Hstate, status_eqb_refl. cbn [negb].
  destruct (then_records_inv _ _ _ _ Hin) as [-> | ->];
    cbn [executor resolve reject is_function typeof String.eqb negb].
  - unfold ok at 1. cbn [typeof]. simpl String.eqb. cbn [negb].
    rewrite (proj1 (Hwrap _)). reflexivity.
  - unfold err at 1. cbn [typeof]. simpl String.eqb. cbn [negb].
    rewrite (proj2 (Hwrap _)). reflexivity.
Qed.

Lemma finally_raise_shadows_witness :
  run_next sample_host 2
    (then_store 0 (VFun (FFinallyOk sample_raiser) []) (VFun (FFinallyErr sample_raiser) [])
       (settled_world FULFILLED (VNum 5)))
  = Some (Normal VUndefined,
          _reject 1 (VStr "boom")
            (set_micro
               [Task 0 (Handler (VFun (FFinallyErr sample_raiser) []) REJECTED
                          (VFun (FResolve 1) []) (VFun (FReject 1) []))]
               (then_store 0 (VFun (FFinallyOk sample_raiser) [])
                  (VFun (FFinallyErr sample_raiser) [])
                  (settled_world FULFILLED (VNum 5)))))
  ∧ state_of 1
      (_reject 1 (VStr "boom")
         (set_micro
            [Task 0 (Handler (VFun (FFinallyErr sample_raiser) []) REJECTED
                       (VFun (FResolve 1) []) (VFun (FReject 1) []))]
            (then_store 0 (VFun (FFinallyOk sample_raiser) [])
               (VFun (FFinallyErr sample_raiser) [])
               (settled_world FULFILLED (VNum 5)))))
    = REJECTED.
Proof.
  pose (ok := VFun (FFinallyOk sample_raiser) []).
  pose (err := VFun (FFinallyErr sample_raiser) []).
  pose (w0 := then_store 0 ok err (settled_world FULFILLED (VNum 5))).
  pose (h1 := Handler ok FULFILLED (VFun (FResolve 1) []) (VFun (FReject 1) [])).
  pose (h2 := Handler err REJECTED (VFun (FResolve 1) []) (VFun (FReject 1) [])).
  destruct (finally_raise_shadows sample_host 0 sample_raiser
              (settled_world FULFILLED (VNum 5)) w0 h1 [Task 0 h2] 1 (VStr "boom")
              (set_micro [Task 0 h2] w0) sample_host_honest
              (settled_world_fresh FULFILLED (VNum 5) eq_refl))
    as (Hrun & Hstate & _).
  - vm_compute. lia.
  - reflexivity.
  - reflexivity.
  - apply waits_refl.
  - reflexivity.
  - apply elem_of_cons. by left.
  - reflexivity.
  - reflexivity.
  - split; [exact Hrun | exact Hstate].
Defined.

(** X12: [catch] is [then] without a fulfilment continuation.  On a
    fulfilled receiver its rejection record is skipped, so [onrejected] is
    never called and the store is left as it is, and its fulfilment record
    passes the receiver's value on to the promise [catch] returned. *)
Theorem catch_passes_fulfilment host k p onrejected w w' h rest n :
  honest host → fresh w → p < length (heap w) → state_of p w = FULFILLED →
  waits host p (length (heap w))
    (then_records VUndefined onrejected (length (heap w)))
    (then_store p VUndefined onrejected w) w' →
  microQueue w' = Task p h :: rest →
  h ∈ then_records VUndefined onrejected (length (heap w)) →
  call host (3 + k) (VFun FCatch []) (VPromise p) [onrejected] w
    = Some (Normal (VPromise (length (heap w))), then_store p VUndefined onrejected w)
  ∧ (state h = REJECTED →
     handler_task (call host n) (Task p h) (set_micro rest w')
       = Some (Normal VUndefined, set_micro rest w'))
  ∧ (state h = FULFILLED →
     ∃ w'',
       handler_task (call host (S n)) (Task p h) (set_micro rest w')
         = Some (Normal VUndefined, w'')
       ∧ state_of (length (heap w)) w'' = FULFILLED
       ∧ result_of (length (heap w)) w'' = result_of p w).
Proof.
  intros Hhost Hfresh Hp Hful Hwaits Hq Hin.
  set (d := length (heap w)) in *.
  assert (state_of p w ≠ PENDING) as Hset by (by rewrite Hful).
  destruct (ext_settled _ _ (then_store_extends p VUndefined onrejected w) p Hset)
    as [Hs0 Hr0].
  destruct (waits_settled _ _ _ _ _ _ p Hwaits) as [Hs' Hr']; [by rewrite Hs0|].
  pose proof (fire_guarded host p d _ _ _ _ _ Hhost
                (then_store_guarded p VUndefined onrejected w Hfresh Hp) Hwaits Hq)
    as Hg0.
  split_and!; [reflexivity| |].
  - intros Hst. apply handler_task_skip. simpl.
    change (state_of p (set_micro rest w')) with (state_of p w').
    rewrite Hst, Hs', Hs0, Hful. done.
  - intros Hst.
    destruct (then_records_inv _ _ _ _ Hin) as [-> | ->]; [|discriminate Hst].
    unfold handler_task; simpl.
    change (state_of p (set_micro rest w')) with (state_of p w').
    change (result_of p (set_micro rest w')) with (result_of p w').
    rewrite Hs', Hs0, Hful. simpl.
    eexists. split; [reflexivity|].
    destruct (guarded_resolve _ _ _ (result_of p w') _ Hg0) as [H1 H2].
    split; [exact H1|]. etrans; [exact H2|]. congruence.
Qed.

Lemma catch_passes_fulfilment_witness :
  call sample_host 3 (VFun FCatch []) (VPromise 0) [sample_raiser]
    (settled_world FULFILLED (VNum 5))
  = Some (Normal (VPromise 1),
          then_store 0 VUndefined sample_raiser (settled_world FULFILLED (VNum 5)))
  ∧ ∃ w, run_next sample_host 1
           (then_store 0 VUndefined sample_raiser (settled_world FULFILLED (VNum 5)))
         = Some (Normal VUndefined, w)
       ∧ state_of 1 w = FULFILLED
       ∧ result_of 1 w = VNum 5.
Proof.
  pose (w0 := then_store 0 VUndefined sample_raiser (settled_world FULFILLED (VNum 5))).
  pose (h1 := Handler VUndefined FULFILLED (VFun (FResolve 1) []) (VFun (FReject 1) [])).
  pose (h2 := Handler sample_raiser REJECTED (VFun (FResolve 1) []) (VFun (FReject 1) [])).
  destruct (catch_passes_fulfilment sample_host 0 0 sample_raiser
              (settled_world FULFILLED (VNum 5)) w0 h1 [Task 0 h2] 0
              sample_host_honest (settled_world_fresh FULFILLED (VNum 5) eq_refl))
    as (Hcall & _ & Hfire).
  - vm_compute. lia.
  - reflexivity.
  - apply waits_refl.
  - reflexivity.
  - apply elem_of_cons. by left.
  - split; [exact Hcall|].
    destruct (Hfire eq_refl) as (w & Hrun & Hstate & Hresult).
    exists w. split; [exact Hrun|]. split; [exact Hstate | exact Hresult].
Defined.

(** ** Adoption by [MyPromise.resolve] *)

Lemma adoption_store_guarded p w :
  fresh w → p < length (heap w) →
  guarded p (length (heap w))
    (then_records (VFun (FResolve (length (heap w))) [])
       (VFun (FReject (length (heap w))) []) (length (heap (alloc w))))
    (then_store p (VFun (FResolve (length (heap w))) [])
       (VFun (FReject (length (heap w))) []) (alloc w)).
Proof.
  intros Hfresh Hp. set (d := length (heap w)).
  split; [|split].
  - rewrite (proj1 (then_store_outcome d p _ _ (alloc w))).
    unfold state_of. rewrite get_promise_alloc. by apply state_of_missing.
  - rewrite heap_then_store, heap_alloc. unfold d. lia.
  - unfold then_store. cbv zeta.
    apply store_ok_executeHandlers.
    apply store_ok_pushHandler.
    { right. split; [done|]. unfold then_records. rewrite !elem_of_cons. auto. }
    apply store_ok_pushHandler.
    { right. split; [done|]. unfold then_records. rewrite !elem_of_cons. auto. }
    do 2 apply store_ok_alloc.
    eapply store_ok_weaken; [|exact Hfresh]. intros; by left.
Qed.

(** X13: [MyPromise.resolve] of a [MyPromise] does not return that promise:
    it returns a new pending promise [d] and attaches the resolvers of [d]
    to the argument with [then].  When the record whose state matches the
    argument's runs, [d] takes the argument's state and result, a rejection
    included. *)
Theorem static_resolve_adopts host k p w w' h rest n :
  honest host → fresh w → p < length (heap w) →
  waits host p (length (heap w))
    (then_records (VFun (FResolve (length (heap w))) [])
       (VFun (FReject (length (heap w))) []) (length (heap (alloc w))))
    (then_store p (VFun (FResolve (length (heap w))) [])
       (VFun (FReject (length (heap w))) []) (alloc w)) w' →
  microQueue w' = Task p h :: rest →
  h ∈ then_records (VFun (FResolve (length (heap w))) [])
        (VFun (FReject (length (heap w))) []) (length (heap (alloc w))) →
  state h = state_of p w' →
  call host (4 + k) (VFun FStaticResolve []) VUndefined [VPromise p] w
    = Some (Normal (VPromise (length (heap w))),
            then_store p (VFun (FResolve (length (heap w))) [])
              (VFun (FReject (length (heap w))) []) (alloc w))
  ∧ state_of (length (heap w))
      (then_store p (VFun (FResolve (length (heap w))) [])
         (VFun (FReject (length (heap w))) []) (alloc w)) = PENDING
  ∧ ∃ w'',
      handler_task (call host (S n)) (Task p h) (set_micro rest w')
        = Some (Normal VUndefined, w'')
      ∧ state_of (length (heap w)) w'' = state_of p w'
      ∧ result_of (length (heap w)) w'' = result_of p w'.
Proof.
  intros Hhost Hfresh Hp Hwaits Hq Hin Hstate.
  set (d := length (heap w)) in *.
  pose proof (adoption_store_guarded p w Hfresh Hp) as Hg.
  pose proof (fire_guarded host p d _ _ _ _ _ Hhost Hg Hwaits Hq) as Hg0.
  split_and!; [reflexivity | apply Hg |].
  assert (length (heap (alloc w)) ≠ d) as Hne by (rewrite heap_alloc; unfold d; lia).
  unfold handler_task; simpl.
  change (state_of p (set_micro rest w')) with (state_of p w').
  change (result_of p (set_micro rest w')) with (result_of p w').
  rewrite <- Hstate, status_eqb_refl. simpl.
  destruct (then_records_inv _ _ _ _ Hin) as [-> | ->]; simpl in *.
  - eexists. split; [reflexivity|].
    destruct (guarded_resolve _ _ _ (result_of p w') _ Hg0) as [H1 H2].
    destruct (same_outcome_changeState d (length (heap (alloc w))) FULFILLED VUndefined
                (_resolve d (result_of p w') (set_micro rest w')) Hne) as [H3 H4].
    split; (etrans; [first [exact H3 | exact H4]|]); [by rewrite H1 | exact H2].
  - eexists. split; [reflexivity|].
    destruct (guarded_reject _ _ _ (result_of p w') _ Hg0) as [H1 H2].
    destruct (same_outcome_changeState d (length (heap (alloc w))) FULFILLED VUndefined
                (_reject d (result_of p w') (set_micro rest w')) Hne) as [H3 H4].
    split; (etrans; [first [exact H3 | exact H4]|]); [by rewrite H1 | exact H2].
Qed.

Lemma static_resolve_adopts_witness :
  call sample_host 4 (VFun FStaticResolve []) VUndefined [VPromise 0]
    (settled_world REJECTED (VStr "no"))
  = Some (Normal (VPromise 1),
          then_store 0 (VFun (FResolve 1) []) (VFun (FReject 1) [])
            (alloc (settled_world REJECTED (VStr "no"))))
  ∧ ∃ w1 w2,
      run_next sample_host 1
        (then_store 0 (VFun (FResolve 1) []) (VFun (FReject 1) [])
           (alloc (settled_world REJECTED (VStr "no"))))
      = Some (Normal VUndefined, w1)
      ∧ run_next sample_host 1 w1 = Some (Normal VUndefined, w2)
      ∧ state_of 1 w2 = REJECTED
      ∧ result_of 1 w2 = VStr "no".
Proof.
  pose (w0 := then_store 0 (VFun (FResolve 1) []) (VFun (FReject 1) [])
                (alloc (settled_world REJECTED (VStr "no")))).
  pose (h1 := Handler (VFun (FResolve 1) []) FULFILLED
                (VFun (FResolve 2) []) (VFun (FReject 2) [])).
  pose (h2 := Handler (VFun (FReject 1) []) REJECTED
                (VFun (FResolve 2) []) (VFun (FReject 2) [])).
  pose (w1 := set_micro [Task 0 h2] w0).
  destruct (static_resolve_adopts sample_host 0 0 (settled_world REJECTED (VStr "no"))
              w1 h2 [] 0 sample_host_honest
              (settled_world_fresh REJECTED (VStr "no") eq_refl))
    as (Hcall & _ & w2 & Hrun & Hstate & Hresult).
  - vm_compute. lia.
  - apply (waits_task _ _ _ _ w0 (Task 0 h1) [Task 0 h2] 1 (Normal VUndefined) w1 w1);
      [reflexivity| |reflexivity|apply waits_refl].
    intros (_ & _ & Hst). discriminate Hst.
  - reflexivity.
  - apply elem_of_cons. right. apply elem_of_cons. by left.
  - reflexivity.
  - split; [exact Hcall|].
    exists w1, w2. split; [reflexivity|].
    split; [exact Hrun|]. split; [exact Hstate | exact Hresult].
Defined.

(** ** Combinators over values that are not promise-like *)

Lemma changeState_unallocated p st v w :
  length (heap w) ≤ p → _changeState p st v w = w.
Proof.
  intros Hge. unfold _changeState.
  destruct (negb _); [done|].
  rewrite update_promise_missing by done.
  unfold _executeHandlers.
  destruct (status_eqb _ _); [done|].
  rewrite handlers_loop_spec by done.
  assert (queue_of p w = []) as ->.
  { unfold queue_of, get_promise. by rewrite lookup_ge_None_2. }
  simpl. rewrite app_nil_r, update_promise_missing by done. by destruct w.
Qed.

(** Settling a promise on which nothing waits changes that promise only. *)
Lemma changeState_fresh_frame r st v w :
  get_promise r w = fresh_promise → st ≠ PENDING →
  microQueue (_changeState r st v w) = microQueue w
  ∧ scopes (_changeState r st v w) = scopes w
  ∧ length (heap (_changeState r st v w)) = length (heap w)
  ∧ (∀ x, x ≠ r → get_promise x (_changeState r st v w) = get_promise x w)
  ∧ (r < length (heap w) →
     get_promise r (_changeState r st v w) = Promise st v []).
Proof.
  intros Hr Hst.
  destruct (decide (r < length (heap w))) as [Hlt|Hge].
  - assert (state_of r w = PENDING) as Hp by (unfold state_of; by rewrite Hr).
    rewrite changeState_pending by done.
    unfold queue_of. rewrite Hr. simpl. rewrite app_nil_r.
    split_and!; try done.
    + apply heap_update_length.
    + intros x Hx.
      change (get_promise x (set_micro ?m ?w')) with (get_promise x w').
      by rewrite get_promise_update_ne.
    + intros _.
      change (get_promise r (set_micro ?m ?w')) with (get_promise r w').
      by rewrite get_promise_update_eq.
  - rewrite changeState_unallocated by lia. by split_and!.
Qed.

Lemma scopes_executeHandlers p w : scopes (_executeHandlers p w) = scopes w.
Proof.
  unfold _executeHandlers. case_match; [done|]. by rewrite handlers_loop_spec.
Qed.

Lemma then_store_frame q onfulfilled onrejected w :
  scopes (then_store q onfulfilled onrejected w) = scopes w
  ∧ ∀ x, x ≠ q →
         get_promise x (then_store q onfulfilled onrejected w) = get_promise x w.
Proof.
  unfold then_store. cbv zeta. split.
  - by rewrite scopes_executeHandlers.
  - intros x Hx. unfold _executeHandlers. case_match.
    + unfold _pushHandler. rewrite !get_promise_update_ne by done.
      apply get_promise_alloc.
    + rewrite handlers_loop_spec by done.
      change (get_promise x (set_micro ?m ?w')) with (get_promise x w').
      unfold _pushHandler. rewrite !get_promise_update_ne by done.
      apply get_promise_alloc.
Qed.

Lemma attach_plain_spec onfulfilled onrejected item w :
  length (heap (attach_plain onfulfilled onrejected item w)) = S (S (length (heap w)))
  ∧ microQueue (attach_plain onfulfilled onrejected item w)
    = microQueue w
      ++ map (Task (length (heap w)))
           (then_records onfulfilled onrejected (S (length (heap w))))
  ∧ scopes (attach_plain onfulfilled onrejected item w) = scopes w
  ∧ (∀ x, x ≠ length (heap w) →
          get_promise x (attach_plain onfulfilled onrejected item w) = get_promise x w)
  ∧ get_promise (length (heap w)) (attach_plain onfulfilled onrejected item w)
    = Promise FULFILLED item [].
Proof.
  unfold attach_plain. set (q := length (heap w)).
  destruct (changeState_fresh FULFILLED item w) as (Hs & Hr & Hm & Hsc & Hlen & Hfr);
    [done|].
  fold q in Hs, Hr, Hm, Hsc, Hlen, Hfr. fold (_resolve q item (alloc w)) in *.
  set (w1 := _resolve q item (alloc w)) in *.
  assert (queue_of q w1 = []) as Hq1.
  { unfold w1, _resolve.
    destruct (changeState_outcome q FULFILLED item (alloc w)) as (_ & _ & H & _);
      try done.
    - rewrite heap_alloc. unfold q. lia.
    - unfold state_of. rewrite get_promise_alloc. by apply state_of_missing. }
  destruct (then_store_frame q onfulfilled onrejected w1) as [Hsc2 Hfr2].
  split_and!.
  - by rewrite heap_then_store, Hlen.
  - rewrite then_store_micro; [|lia|by rewrite Hs].
    by rewrite Hq1, Hm, Hlen.
  - by rewrite Hsc2.
  - intros x Hx. rewrite Hfr2 by done. by apply Hfr.
  - assert (get_promise q w1 = Promise FULFILLED item []) as Hq.
    { unfold state_of, result_of, queue_of in *.
      destruct (get_promise q w1); simpl in *. by subst. }
    unfold then_store. cbv zeta.
    rewrite executeHandlers_settled.
    + change (get_promise q (set_micro ?m ?w')) with (get_promise q w').
      unfold _pushHandler. rewrite !update_promise_compose.
      rewrite get_promise_update_eq by (rewrite heap_alloc; lia).
      simpl. rewrite get_promise_alloc, Hq. done.
    + unfold _pushHandler. rewrite !state_of_update by done.
      unfold state_of. rewrite get_promise_alloc. fold (state_of q w1). by rewrite Hs.
Qed.

Lemma get_promise_unallocated x w :
  length (heap w) ≤ x → get_promise x w = fresh_promise.
Proof. intros H. unfold get_promise. by rewrite lookup_ge_None_2. Qed.

Lemma attach_each_spec conts items index w :
  length (heap (attach_each conts items index w))
    = length (heap w) + 2 * length items
  ∧ microQueue (attach_each conts items index w)
    = microQueue w ++ attach_tasks conts (length items) index (length (heap w))
  ∧ scopes (attach_each conts items index w) = scopes w
  ∧ (∀ x, x < length (heap w) →
          get_promise x (attach_each conts items index w) = get_promise x w)
  ∧ attached (attach_each conts items index w) items (length (heap w)).
Proof.
  revert index w. induction items as [|item rest IH]; intros index w; simpl.
  - rewrite app_nil_r. split_and!; try done; lia.
  - destruct (attach_plain_spec (conts index).1 (conts index).2 item w)
      as (Hlen & Hm & Hsc & Hfr & Hq).
    set (w1 := attach_plain (conts index).1 (conts index).2 item w) in *.
    destruct (IH (S index) w1) as (Hlen' & Hm' & Hsc' & Hfr' & Hatt').
    rewrite Hlen in Hlen', Hm', Hfr', Hatt'.
    split_and!.
    + rewrite Hlen'. lia.
    + by rewrite Hm', Hm, <- app_assoc.
    + by rewrite Hsc'.
    + intros x Hx. rewrite Hfr' by lia. apply Hfr. lia.
    + by rewrite Hfr', Hq by lia.
    + rewrite Hfr', Hfr by lia. apply get_promise_unallocated. lia.
    + done.
Qed.

Lemma MyPromise_resolve_plain host k item w :
  isPromise item = false →
  MyPromise_resolve (call host (2 + k)) item w
    = Some (Normal (VPromise (length (heap w))),
            _resolve (length (heap w)) item (alloc w)).
Proof.
  intros Hplain. change (2 + k) with (S (S k)).
  unfold MyPromise_resolve, MyPromise_new.
  cbn [call call_body]. unfold arg; cbn [lookup list_lookup default].
  unfold resolve_executor, bind, id. rewrite Hplain. reflexivity.
Qed.

Lemma attach_plain_run host k a b item (K : M) w :
  isPromise item = false →
  bind (MyPromise_resolve (call host (2 + k)) item)
    (λ pr, bind (call_method (call host (2 + k)) pr "then" [a; b]) (λ _, K)) w
  = K (attach_plain a b item w).
Proof.
  intros Hplain. unfold bind at 1. rewrite MyPromise_resolve_plain by done.
  unfold bind, call_method. cbn [get_prop String.eqb].
  simpl get_prop. rewrite then_call. reflexivity.
Qed.

Lemma all_forEach_plain host k c len res rej items index w :
  Forall (λ v, isPromise v = false) items →
  all_forEach (call host (2 + k)) c len res rej items index w
    = Some (Normal VUndefined, attach_each (all_conts c len res rej) items index w).
Proof.
  intros Hplain. revert index w.
  induction Hplain as [|item rest Hitem _ IH]; intros index w; [done|].
  cbn [all_forEach attach_each].
  rewrite attach_plain_run by done. apply IH.
Qed.

Lemma race_forEach_plain host k res rej items index w :
  Forall (λ v, isPromise v = false) items →
  race_forEach (call host (2 + k)) res rej items w
    = Some (Normal VUndefined, attach_each (race_conts res rej) items index w).
Proof.
  intros Hplain. revert index w.
  induction Hplain as [|item rest Hitem _ IH]; intros index w; [done|].
  cbn [race_forEach attach_each].
  rewrite attach_plain_run by done. apply IH.
Qed.

Lemma get_scope_record c index v w :
  c < length (scopes w) →
  get_scope c (record_value c index v w)
    = AllScope (S (fulfilledLength (get_scope c w)))
        (array_set index v (values (get_scope c w))).
Proof.
  intros Hc. unfold get_scope, record_value; simpl.
  rewrite list_lookup_alter_eq.
  by destruct (lookup_lt_is_Some_2 _ _ Hc) as [s ->].
Qed.

Lemma array_set_end v (l : list val) : array_set (length l) v l = l ++ [v].
Proof.
  unfold array_set. case_decide; [lia|]. by rewrite Nat.sub_diag.
Qed.

Lemma attached_frame w w' items base :
  (∀ x, base ≤ x → get_promise x w' = get_promise x w) →
  attached w items base → attached w' items base.
Proof.
  revert base. induction items as [|item rest IH]; intros base Hfr; simpl; [done|].
  intros (H1 & H2 & H3). split_and!.
  - by rewrite Hfr by lia.
  - by rewrite Hfr by lia.
  - apply IH; [|done]. intros x Hx. apply Hfr. lia.
Qed.

Lemma drain_step host fuel n w t q c w' :
  microQueue w = t :: q → run_next host fuel w = Some (c, w') →
  drain host fuel (S n) w = drain host fuel n w'.
Proof. intros Hq Hrun. simpl. by rewrite Hq, Hrun. Qed.

(** The fulfilment callback of [all] at position [index], run when [index]
    values are in: it records its value, and completes the aggregate [d]
    exactly when that makes [len] values. *)
Lemma all_onfulfilled_call host k c index len d item done w :
  get_scope c w = AllScope index done → length done = index →
  c < length (scopes w) → get_promise d w = fresh_promise →
  ∃ w1,
    call host (2 + k) (VFun (FAllOk c index len (VFun (FResolve d) [])) []) VUndefined
      [item] w = Some (Normal VUndefined, w1)
    ∧ microQueue w1 = microQueue w
    ∧ get_scope c w1 = AllScope (S index) (done ++ [item])
    ∧ length (scopes w1) = length (scopes w)
    ∧ length (heap w1) = length (heap w)
    ∧ (∀ x, x ≠ d → get_promise x w1 = get_promise x w)
    ∧ (S index = len → d < length (heap w) →
       get_promise d w1 = Promise FULFILLED (VArray (done ++ [item])) [])
    ∧ (S index ≠ len → get_promise d w1 = get_promise d w).
Proof.
  intros Hsc Hlen Hc Hd.
  assert (get_scope c (record_value c index item w)
          = AllScope (S index) (done ++ [item])) as Hsc1.
  { rewrite get_scope_record by done. rewrite Hsc. simpl.
    by rewrite <- Hlen, array_set_end. }
  assert (length (scopes (record_value c index item w)) = length (scopes w)) as Hlsc.
  { unfold record_value; simpl. apply length_alter. }
  change (2 + k) with (S (S k)).
  cbn [call call_body]. unfold arg; cbn [lookup list_lookup default].
  unfold all_onfulfilled, id. rewrite Hsc1. cbn [fulfilledLength values].
  destruct (S index =? len) eqn:E.
  - apply Nat.eqb_eq in E.
    destruct (changeState_fresh_frame d FULFILLED (VArray (done ++ [item]))
                (record_value c index item w)) as (Hm & Hs & Hh & Hfr & Hset);
      [exact Hd|done|].
    eexists. split; [reflexivity|].
    split_and!; try done.
    + etrans; [|exact Hsc1]. unfold get_scope. f_equal. f_equal. exact Hs.
    + etrans; [|exact Hlsc]. f_equal. exact Hs.
  - apply Nat.eqb_neq in E.
    eexists. split; [reflexivity|]. by split_and!.
Qed.

Lemma handler_task_plain host fuel p h w v w1 u w2 :
  state h = state_of p w → is_function (executor h) = true →
  call host fuel (executor h) VUndefined [result_of p w] w = Some (Normal v, w1) →
  isPromise v = false →
  call host fuel (resolve h) VUndefined [v] w1 = Some (Normal u, w2) →
  handler_task (call host fuel) (Task p h) w = Some (Normal VUndefined, w2).
Proof.
  intros Hstate Hfun Hcall Hplain Hres. unfold handler_task. cbn [owner job].
  rewrite <- Hstate, status_eqb_refl, Hfun. cbn [negb].
  unfold try_catch, bind. by rewrite Hcall, Hplain, Hres.
Qed.

(** Two scheduler turns: the fulfilment record of one item of [all] runs,
    then its rejection record is skipped. *)
Lemma all_pair_step host k c len d rej item index base done tl w :
  microQueue w
    = map (Task base)
        (then_records (VFun (FAllOk c index len (VFun (FResolve d) [])) [])
           (VFun (FAllErr rej) []) (S base)) ++ tl →
  get_promise base w = Promise FULFILLED item [] →
  get_promise (S base) w = fresh_promise →
  get_scope c w = AllScope index done → length done = index →
  c < length (scopes w) →
  get_promise d w = fresh_promise → d < length (heap w) → d < base →
  ∃ w1 w2,
    run_next host (2 + k) w = Some (Normal VUndefined, w1)
    ∧ microQueue w1
      = Task base (Handler (VFun (FAllErr rej) []) REJECTED
                     (VFun (FResolve (S base)) []) (VFun (FReject (S base)) [])) :: tl
    ∧ run_next host (2 + k) w1 = Some (Normal VUndefined, w2)
    ∧ microQueue w2 = tl
    ∧ get_scope c w2 = AllScope (S index) (done ++ [item])
    ∧ length (scopes w2) = length (scopes w)
    ∧ length (heap w2) = length (heap w)
    ∧ (∀ x, x ≠ d → x ≠ S base → get_promise x w2 = get_promise x w)
    ∧ (S index = len →
       get_promise d w2 = Promise FULFILLED (VArray (done ++ [item])) [])
    ∧ (S index ≠ len → get_promise d w2 = get_promise d w).
Proof.
  intros Hq Hbase Hnext Hsc Hlen Hc Hd Hdlt Hdb.
  set (hok := Handler (VFun (FAllOk c index len (VFun (FResolve d) [])) []) FULFILLED
                (VFun (FResolve (S base)) []) (VFun (FReject (S base)) [])).
  set (herr := Handler (VFun (FAllErr rej) []) REJECTED
                 (VFun (FResolve (S base)) []) (VFun (FReject (S base)) [])).
  set (w0 := set_micro (Task base herr :: tl) w).
  destruct (all_onfulfilled_call host k c index len d item done w0)
    as (wa & Hcall & Hma & Hsca & Hlsa & Hha & Hfra & Hseta & Hkeepa); try done.
  assert (get_promise (S base) wa = fresh_promise) as Hnext_a.
  { rewrite Hfra by lia. exact Hnext. }
  destruct (changeState_fresh_frame (S base) FULFILLED VUndefined wa)
    as (Hm1 & Hs1 & Hh1 & Hfr1 & _); [exact Hnext_a|done|].
  set (w1 := _changeState (S base) FULFILLED VUndefined wa) in *.
  assert (run_next host (2 + k) w = Some (Normal VUndefined, w1)) as Hrun1.
  { unfold run_next. rewrite Hq. cbn [map then_records app].
    fold hok herr. fold w0.
    apply (handler_task_plain host (2 + k) base hok w0 VUndefined wa VUndefined);
      try done.
    - unfold state_of. change (get_promise base w0) with (get_promise base w).
      by rewrite Hbase.
    - unfold result_of. change (get_promise base w0) with (get_promise base w).
      rewrite Hbase. exact Hcall. }
  assert (microQueue w1 = Task base herr :: tl) as Hq1 by (by rewrite Hm1, Hma).
  assert (get_promise base w1 = Promise FULFILLED item []) as Hbase1.
  { rewrite Hfr1, Hfra by lia. exact Hbase. }
  exists w1, (set_micro tl w1).
  split_and!; try done.
  - unfold run_next. rewrite Hq1. apply handler_task_skip.
    cbn [job owner state herr]. unfold state_of.
    change (get_promise base (set_micro tl w1)) with (get_promise base w1).
    by rewrite Hbase1.
  - change (get_scope c (set_micro tl w1)) with (get_scope c w1).
    etrans; [|exact Hsca]. unfold get_scope. by rewrite Hs1.
  - change (scopes (set_micro tl w1)) with (scopes w1). by rewrite Hs1, Hlsa.
  - change (heap (set_micro tl w1)) with (heap w1). by rewrite Hh1, Hha.
  - intros x Hxd Hxb.
    change (get_promise x (set_micro tl w1)) with (get_promise x w1).
    rewrite Hfr1, Hfra by done. done.
  - intros Hlast.
    change (get_promise d (set_micro tl w1)) with (get_promise d w1).
    rewrite Hfr1 by lia. by apply Hseta.
  - intros Hmore.
    change (get_promise d (set_micro tl w1)) with (get_promise d w1).
    rewrite Hfr1 by lia. by rewrite Hkeepa.
Qed.

Lemma length_attach_tasks conts n index base :
  length (attach_tasks conts n index base) = 2 * n.
Proof.
  revert index base. induction n as [|n IH]; intros index base; simpl; [done|].
  rewrite IH. lia.
Qed.

Lemma all_drain host k c len d rej rest :
  ∀ item index base done w,
    microQueue w
      = attach_tasks (all_conts c len (VFun (FResolve d) []) rej)
          (S (length rest)) index base →
    attached w (item :: rest) base →
    get_scope c w = AllScope index done → length done = index →
    c < length (scopes w) →
    index + S (length rest) = len →
    get_promise d w = fresh_promise → d < length (heap w) → d < base →
    ∃ w',
      drain host (2 + k) (2 * S (length rest)) w = Some w'
      ∧ microQueue w' = []
      ∧ get_promise d w' = Promise FULFILLED (VArray (done ++ item :: rest)) [].
Proof.
  induction rest as [|item' rest' IH];
    intros item index base done w Hq (Hbase & Hnext & Hrest) Hsc Hlen Hc Hcount
      Hd Hdlt Hdb.
  - cbn [attach_tasks all_conts fst snd length] in Hq.
    destruct (all_pair_step host k c len d rej item index base done [] w)
      as (w1 & w2 & Hrun1 & Hq1 & Hrun2 & Hq2 & _ & _ & _ & _ & Hlast & _);
      try done.
    exists w2. simpl length in *.
    change (2 * 1) with (S (S 0)).
    rewrite (drain_step _ _ _ _ _ _ _ _ Hq Hrun1).
    rewrite (drain_step _ _ _ _ _ _ _ _ Hq1 Hrun2).
    split_and!; [done|done|]. apply Hlast. lia.
  - cbn [attach_tasks all_conts fst snd length] in Hq.
    destruct (all_pair_step host k c len d rej item index base done _ w Hq)
      as (w1 & w2 & Hrun1 & Hq1 & Hrun2 & Hq2 & Hsc2 & Hls2 & Hh2 & Hfr2 & _ & Hkeep);
      try done.
    destruct (IH item' (S index) (S (S base)) (done ++ [item]) w2)
      as (w' & Hdrain & Hq' & Hd'); try done.
    + apply (attached_frame w); [|done]. intros x Hx. apply Hfr2; lia.
    + rewrite length_app. simpl. lia.
    + by rewrite Hls2.
    + simpl in *. lia.
    + rewrite Hkeep; [done|]. simpl in Hcount. lia.
    + by rewrite Hh2.
    + lia.
    + exists w'.
      replace (2 * S (length (item' :: rest')))
        with (S (S (2 * S (length rest')))) by (simpl; lia).
      rewrite (drain_step _ _ _ _ _ _ _ _ Hq Hrun1).
      rewrite (drain_step _ _ _ _ _ _ _ _ Hq1 Hrun2).
      split_and!; [done|done|]. by rewrite Hd', <- app_assoc.
Qed.

(** X14: in a store with no callback waiting, [all] of a non-empty
    sequence of values none of which is promise-like returns a pending
    promise; after the two callbacks per item that it scheduled have run the
    queue is empty again and the promise is fulfilled with exactly the input
    values, in input order. *)
Theorem all_plain_values host k j items w :
  items ≠ [] → Forall (λ v, isPromise v = false) items → microQueue w = [] →
  ∃ w1 w2,
    call host (4 + k) (VFun FAll []) VUndefined [VArray items] w
      = Some (Normal (VPromise (length (heap w))), w1)
    ∧ state_of (length (heap w)) w1 = PENDING
    ∧ length (microQueue w1) = 2 * length items
    ∧ drain host (2 + j) (2 * length items) w1 = Some w2
    ∧ microQueue w2 = []
    ∧ state_of (length (heap w)) w2 = FULFILLED
    ∧ result_of (length (heap w)) w2 = VArray items.
Proof.
  intros Hne Hplain Hq.
  set (d := length (heap w)).
  set (c := length (scopes w)).
  set (res := VFun (FResolve d) []).
  set (rej := VFun (FReject d) []).
  set (w0 := alloc (alloc_scope w)).
  set (w1 := attach_each (all_conts c (length items) res rej) items 0 w0).
  destruct (attach_each_spec (all_conts c (length items) res rej) items 0 w0)
    as (Hlen & Hm & Hsc & Hfr & Hatt). fold w1 in Hlen, Hm, Hsc, Hfr, Hatt.
  assert (length (heap w0) = S d) as Hh0 by apply heap_alloc.
  assert (get_promise d w1 = fresh_promise) as Hd1.
  { rewrite Hfr by lia. unfold w0. rewrite get_promise_alloc.
    by apply get_promise_unallocated. }
  assert (call host (3 + k) (VFun (FAllExec c items) []) VUndefined [res; rej] w0
          = Some (Normal VUndefined, w1)) as Hexec.
  { change (call host (3 + k) (VFun (FAllExec c items) []) VUndefined [res; rej] w0)
      with (all_executor (call host (2 + k)) c items res rej w0).
    unfold all_executor. destruct items as [|item rest]; [done|].
    cbn [length Nat.eqb]. by apply all_forEach_plain. }
  assert (call host (4 + k) (VFun FAll []) VUndefined [VArray items] w
          = Some (Normal (VPromise d), w1)) as Hcall.
  { change (call host (4 + k) (VFun FAll []) VUndefined [VArray items] w)
      with (MyPromise_new (call host (3 + k)) (VFun (FAllExec c items) [])
              (alloc_scope w)).
    unfold MyPromise_new.
    change (length (heap (alloc_scope w))) with d.
    fold res rej. fold w0. by rewrite Hexec. }
  assert (microQueue w1
          = attach_tasks (all_conts c (length items) res rej) (length items) 0 (S d))
    as Hq1.
  { rewrite Hm, Hh0. unfold w0. simpl. by rewrite Hq. }
  destruct items as [|item rest]; [done|].
  destruct (all_drain host j c (length (item :: rest)) d rej rest item 0 (S d) [] w1)
    as (w2 & Hdrain & Hq2 & Hd2); try done.
  - by rewrite <- Hh0.
  - unfold get_scope. rewrite Hsc. unfold w0, alloc_scope, c; simpl.
    rewrite lookup_app_r by done. by rewrite Nat.sub_diag.
  - rewrite Hsc. unfold w0, alloc_scope, c; simpl. rewrite length_app. simpl. lia.
  - rewrite Hlen, Hh0. lia.
  - lia.
  - exists w1, w2. split_and!; try done.
    + unfold state_of. by rewrite Hd1.
    + rewrite Hq1. apply length_attach_tasks.
    + unfold state_of. by rewrite Hd2.
    + unfold result_of. by rewrite Hd2.
Qed.

Lemma all_plain_values_witness :
  ∃ w1 w2,
    call sample_host 4 (VFun FAll []) VUndefined
      [VArray [VNum 3; VStr "x"; VNull]] empty_world
      = Some (Normal (VPromise 0), w1)
    ∧ state_of 0 w1 = PENDING
    ∧ length (microQueue w1) = 6
    ∧ drain sample_host 2 6 w1 = Some w2
    ∧ microQueue w2 = []
    ∧ state_of 0 w2 = FULFILLED
    ∧ result_of 0 w2 = VArray [VNum 3; VStr "x"; VNull].
Proof.
  apply (all_plain_values sample_host 0 0 [VNum 3; VStr "x"; VNull] empty_world).
  - discriminate.
  - repeat constructor.
  - reflexivity.
Defined.

Lemma drain_settled host fuel n w w' q :
  drain host fuel n w = Some w' → state_of q w ≠ PENDING →
  state_of q w' = state_of q w ∧ result_of q w' = result_of q w.
Proof.
  revert w. induction n as [|n IH]; intros w; simpl.
  - by intros [= <-].
  - destruct (microQueue w) as [|t rest] eqn:Hq; [by intros [= <-]|].
    unfold run_next. rewrite Hq.
    destruct (handler_task (call host fuel) t (set_micro rest w)) as [[c w1]|] eqn:E;
      [|done].
    intros Hdrain Hset.
    destruct (ext_settled _ _ (task_extends _ _ _ _ _ _ E) q Hset) as [Hs1 Hr1].
    destruct (IH w1 Hdrain) as [Hs2 Hr2]; [by rewrite Hs1|].
    split; [by rewrite Hs2, Hs1 | by rewrite Hr2, Hr1].
Qed.

(** X15: in a store with no callback waiting, [race] of values none of which
    is promise-like returns a pending promise, and the first callback to run
    fulfils it with the first value of the sequence; the callbacks of the
    other items that run afterwards do not change that. *)
Theorem race_plain_first host k j item rest w :
  Forall (λ v, isPromise v = false) (item :: rest) → microQueue w = [] →
  ∃ w1 w2,
    call host (4 + k) (VFun FRace []) VUndefined [VArray (item :: rest)] w
      = Some (Normal (VPromise (length (heap w))), w1)
    ∧ state_of (length (heap w)) w1 = PENDING
    ∧ run_next host (1 + j) w1 = Some (Normal VUndefined, w2)
    ∧ state_of (length (heap w)) w2 = FULFILLED
    ∧ result_of (length (heap w)) w2 = item
    ∧ ∀ fuel n w3,
        drain host fuel n w2 = Some w3 →
        state_of (length (heap w)) w3 = FULFILLED
        ∧ result_of (length (heap w)) w3 = item.
Proof.
  intros Hplain Hq.
  set (d := length (heap w)).
  set (res := VFun (FResolve d) []).
  set (rej := VFun (FReject d) []).
  set (w0 := alloc w).
  set (w1 := attach_each (race_conts res rej) (item :: rest) 0 w0).
  destruct (attach_each_spec (race_conts res rej) (item :: rest) 0 w0)
    as (Hlen & Hm & Hsc & Hfr & Hatt). fold w1 in Hlen, Hm, Hsc, Hfr, Hatt.
  assert (length (heap w0) = S d) as Hh0 by apply heap_alloc.
  rewrite Hh0 in Hm, Hatt, Hfr, Hlen.
  destruct Hatt as (Hbase & Hnext & _).
  assert (get_promise d w1 = fresh_promise) as Hd1.
  { rewrite Hfr by lia. unfold w0. rewrite get_promise_alloc.
    by apply get_promise_unallocated. }
  assert (call host (4 + k) (VFun FRace []) VUndefined [VArray (item :: rest)] w
          = Some (Normal (VPromise d), w1)) as Hcall.
  { change (call host (4 + k) (VFun FRace []) VUndefined [VArray (item :: rest)] w)
      with (MyPromise_new (call host (3 + k)) (VFun (FRaceExec (item :: rest)) []) w).
    unfold MyPromise_new. fold d res rej w0.
    change (call host (3 + k) (VFun (FRaceExec (item :: rest)) []) VUndefined
              [res; rej] w0)
      with (race_forEach (call host (2 + k)) res rej (item :: rest) w0).
    by rewrite (race_forEach_plain host k res rej (item :: rest) 0 w0 Hplain). }
  cbn [attach_tasks race_conts fst snd length map then_records app] in Hm.
  unfold w0 at 1 in Hm. simpl microQueue in Hm. rewrite Hq in Hm. simpl in Hm.
  set (h := Handler res FULFILLED (VFun (FResolve (S (S d))) []) (VFun (FReject (S (S d))) []))
    in *.
  match type of Hm with _ = _ :: ?tl => set (tail := tl) in * end.
  set (wq := set_micro tail w1).
  destruct (changeState_fresh_frame d FULFILLED item wq)
    as (Hm2 & Hs2 & Hh2 & Hfr2 & Hset2); [exact Hd1|done|].
  set (wa := _changeState d FULFILLED item wq) in *.
  destruct (changeState_fresh_frame (S (S d)) FULFILLED VUndefined wa)
    as (Hm3 & Hs3 & Hh3 & Hfr3 & _); [|done|].
  { rewrite Hfr2 by lia. exact Hnext. }
  set (w2 := _changeState (S (S d)) FULFILLED VUndefined wa) in *.
  assert (get_promise d w2 = Promise FULFILLED item []) as Hd2.
  { rewrite Hfr3 by lia. apply Hset2.
    change (heap wq) with (heap w1). rewrite Hlen. simpl. lia. }
  exists w1, w2. split_and!.
  - exact Hcall.
  - unfold state_of. by rewrite Hd1.
  - unfold run_next. rewrite Hm. fold wq.
    apply (handler_task_plain host (1 + j) (S d) h wq VUndefined wa VUndefined);
      try done.
    + unfold state_of. change (get_promise (S d) wq) with (get_promise (S d) w1).
      by rewrite Hbase.
    + unfold result_of. change (get_promise (S d) wq) with (get_promise (S d) w1).
      by rewrite Hbase.
  - unfold state_of. by rewrite Hd2.
  - unfold result_of. by rewrite Hd2.
  - intros fuel n w3 Hdrain.
    destruct (drain_settled _ _ _ _ _ d Hdrain) as [Hs Hr].
    + unfold state_of. by rewrite Hd2.
    + unfold state_of, result_of in *. rewrite Hs, Hr, Hd2. done.
Qed.

Lemma race_plain_first_witness :
  ∃ w1 w2,
    call sample_host 4 (VFun FRace []) VUndefined
      [VArray [VNum 3; VStr "x"]] empty_world
      = Some (Normal (VPromise 0), w1)
    ∧ state_of 0 w1 = PENDING
    ∧ run_next sample_host 1 w1 = Some (Normal VUndefined, w2)
    ∧ state_of 0 w2 = FULFILLED
    ∧ result_of 0 w2 = VNum 3
    ∧ ∀ fuel n w3,
        drain sample_host fuel n w2 = Some w3 →
        state_of 0 w3 = FULFILLED ∧ result_of 0 w3 = VNum 3.
Proof.
  apply (race_plain_first sample_host 0 0 (VNum 3) [VStr "x"] empty_world).
  - repeat constructor.
  - reflexivity.
Defined.

(** ** Order of attachment, [allSettled], and [finally] without a callback *)

(** X16: continuations attached to a pending promise are scheduled in the
    order they were attached: after two calls of [then] and a [complete],
    the queue holds the records that were already waiting, then the two of
    the first [then], then the two of the second, and the handler queue of
    the promise is empty. *)
Theorem then_attachment_order p f1 r1 f2 r2 value w :
  p < length (heap w) → state_of p w = PENDING →
  microQueue (_resolve p value (then_store p f2 r2 (then_store p f1 r1 w)))
    = microQueue w
      ++ map (Task p)
           (queue_of p w
            ++ then_records f1 r1 (length (heap w))
            ++ then_records f2 r2 (S (length (heap w))))
  ∧ queue_of p (_resolve p value (then_store p f2 r2 (then_store p f1 r1 w))) = [].
Proof.
  intros Hlt Hp.
  destruct (then_store_pending p f1 r1 w Hlt Hp) as (Hm1 & Hq1 & Hp1 & _ & Hh1).
  set (w1 := then_store p f1 r1 w) in *.
  assert (p < length (heap w1)) as Hlt1 by lia.
  destruct (then_store_pending p f2 r2 w1 Hlt1 Hp1) as (Hm2 & Hq2 & Hp2 & _ & Hh2).
  set (w2 := then_store p f2 r2 w1) in *.
  assert (p < length (heap w2)) as Hlt2 by lia.
  unfold _resolve.
  destruct (changeState_outcome p FULFILLED value w2 Hlt2 Hp2) as (_ & _ & Hq3 & Hm3);
    [done|].
  split; [|done].
  by rewrite Hm3, Hm2, Hm1, Hq2, Hq1, Hh1, <- app_assoc.
Qed.

Lemma then_attachment_order_witness :
  microQueue (_resolve 0 (VNum 1)
                (then_store 0 sample_onfinally VUndefined
                   (then_store 0 sample_raiser VUndefined (alloc empty_world))))
  = map (Task 0)
      (then_records sample_raiser VUndefined 1
       ++ then_records sample_onfinally VUndefined 2).
Proof.
  destruct (then_attachment_order 0 sample_raiser VUndefined sample_onfinally
              VUndefined (VNum 1) (alloc empty_world)) as [H _].
  - simpl. lia.
  - reflexivity.
  - exact H.
Defined.

(** X17: the two continuations [allSettled] attaches to each item never
    raise and never return a promise-like value, so whichever of the two
    records runs, the promise [then] returned for the item is fulfilled: with
    [{status: 'fulfilled', value}] for a fulfilled item and with
    [{status: 'rejected', reason}] for a rejected one. *)
Theorem allSettled_record_fulfils host p w w' h rest n :
  honest host → fresh w → p < length (heap w) →
  waits host p (length (heap w))
    (then_records (VFun FSettledOk []) (VFun FSettledErr []) (length (heap w)))
    (then_store p (VFun FSettledOk []) (VFun FSettledErr []) w) w' →
  microQueue w' = Task p h :: rest →
  h ∈ then_records (VFun FSettledOk []) (VFun FSettledErr []) (length (heap w)) →
  state h = state_of p w' →
  ∃ w'',
    handler_task (call host (S n)) (Task p h) (set_micro rest w')
      = Some (Normal VUndefined, w'')
    ∧ state_of (length (heap w)) w'' = FULFILLED
    ∧ result_of (length (heap w)) w''
      = VObject [("status", VStr (status_string (state_of p w')));
                 (if status_eqb (state_of p w') FULFILLED then "value" else "reason",
                  result_of p w')].
Proof.
  intros Hhost Hfresh Hp Hwaits Hq Hin Hstate.
  set (d := length (heap w)) in *.
  pose proof (fire_guarded host p d _ _ _ _ _ Hhost
                (then_store_guarded p _ _ w Hfresh Hp) Hwaits Hq) as Hg0.
  destruct (then_records_inv _ _ _ _ Hin) as [-> | ->]; simpl in Hstate;
    rewrite <- Hstate; cbn [status_eqb status_string].
  - set (desc := VObject [("status", VStr "fulfilled"); ("value", result_of p w')]).
    exists (_resolve d desc (set_micro rest w')). split.
    + by apply (handler_task_plain host (S n) p _ (set_micro rest w') desc
                  (set_micro rest w') VUndefined).
    + by eapply guarded_resolve.
  - set (desc := VObject [("status", VStr "rejected"); ("reason", result_of p w')]).
    exists (_resolve d desc (set_micro rest w')). split.
    + by apply (handler_task_plain host (S n) p _ (set_micro rest w') desc
                  (set_micro rest w') VUndefined).
    + by eapply guarded_resolve.
Qed.

Lemma allSettled_record_fulfils_witness :
  ∃ w1 w2,
    run_next sample_host 1
      (then_store 0 (VFun FSettledOk []) (VFun FSettledErr [])
         (settled_world REJECTED (VStr "no")))
    = Some (Normal VUndefined, w1)
    ∧ run_next sample_host 1 w1 = Some (Normal VUndefined, w2)
    ∧ state_of 1 w2 = FULFILLED
    ∧ result_of 1 w2
      = VObject [("status", VStr "rejected"); ("reason", VStr "no")].
Proof.
  pose (w0 := then_store 0 (VFun FSettledOk []) (VFun FSettledErr [])
                (settled_world REJECTED (VStr "no"))).
  pose (h1 := Handler (VFun FSettledOk []) FULFILLED
                (VFun (FResolve 1) []) (VFun (FReject 1) [])).
  pose (h2 := Handler (VFun FSettledErr []) REJECTED
                (VFun (FResolve 1) []) (VFun (FReject 1) [])).
  pose (w1 := set_micro [Task 0 h2] w0).
  destruct (allSettled_record_fulfils sample_host 0 (settled_world REJECTED (VStr "no"))
              w1 h2 [] 0 sample_host_honest
              (settled_world_fresh REJECTED (VStr "no") eq_refl))
    as (w2 & Hrun & Hstate & Hresult).
  - vm_compute. lia.
  - apply (waits_task _ _ _ _ w0 (Task 0 h1) [Task 0 h2] 1 (Normal VUndefined) w1 w1);
      [reflexivity| |reflexivity|apply waits_refl].
    intros (_ & _ & Hst). discriminate Hst.
  - reflexivity.
  - apply elem_of_cons. right. apply elem_of_cons. by left.
  - reflexivity.
  - exists w1, w2. split; [reflexivity|].
    split; [exact Hrun|]. split; [exact Hstate | exact Hresult].
Defined.

(** X18: [finally] with an argument that is not a function calls nothing:
    when the record whose state matches the receiver's runs, the promise
    [finally] returned is rejected with the receiver's reason, or fulfilled
    with the receiver's value when that value is not promise-like. *)
Theorem finally_without_callback host p onfinally w w' h rest n :
  honest host → fresh w → p < length (heap w) →
  is_function onfinally = false →
  waits host p (length (heap w))
    (then_records (VFun (FFinallyOk onfinally) []) (VFun (FFinallyErr onfinally) [])
       (length (heap w)))
    (then_store p (VFun (FFinallyOk onfinally) []) (VFun (FFinallyErr onfinally) []) w)
    w' →
  microQueue w' = Task p h :: rest →
  h ∈ then_records (VFun (FFinallyOk onfinally) []) (VFun (FFinallyErr onfinally) [])
        (length (heap w)) →
  state h = state_of p w' →
  (state_of p w' = FULFILLED → isPromise (result_of p w') = false →
   handler_task (call host (2 + n)) (Task p h) (set_micro rest w')
     = Some (Normal VUndefined,
             _resolve (length (heap w)) (result_of p w') (set_micro rest w'))
   ∧ state_of (length (heap w))
       (_resolve (length (heap w)) (result_of p w') (set_micro rest w')) = FULFILLED
   ∧ result_of (length (heap w))
       (_resolve (length (heap w)) (result_of p w') (set_micro rest w'))
     = result_of p w')
  ∧ (state_of p w' = REJECTED →
     handler_task (call host (2 + n)) (Task p h) (set_micro rest w')
       = Some (Normal VUndefined,
               _reject (length (heap w)) (result_of p w') (set_micro rest w'))
     ∧ state_of (length (heap w))
         (_reject (length (heap w)) (result_of p w') (set_micro rest w')) = REJECTED
     ∧ result_of (length (heap w))
         (_reject (length (heap w)) (result_of p w') (set_micro rest w'))
       = result_of p w').
Proof.
  intros Hhost Hfresh Hp Hfun Hwaits Hq Hin Hstate.
  set (d := length (heap w)) in *.
  set (ok := VFun (FFinallyOk onfinally) []) in *.
  set (err := VFun (FFinallyErr onfinally) []) in *.
  pose proof (fire_guarded host p d _ _ _ _ _ Hhost
                (then_store_guarded p ok err w Hfresh Hp) Hwaits Hq) as Hg0.
  assert (∀ v w1,
    call host (2 + n) ok VUndefined [v] w1 = Some (Normal v, w1)
    ∧ call host (2 + n) err VUndefined [v] w1 = Some (Throw v, w1)) as Hwrap.
  { intros v w1. simpl. unfold bind, run_onfinally. by rewrite Hfun. }
  split.
  - intros Hful Hplain. split; [|by eapply guarded_resolve].
    destruct (then_records_inv _ _ _ _ Hin) as [-> | ->]; simpl in Hstate;
      [|congruence].
    apply (handler_task_plain host (2 + n) p _ (set_micro rest w')
             (result_of p w') (set_micro rest w') VUndefined); try done.
    apply Hwrap.
  - intros Hrej. split; [|by eapply guarded_reject].
    destruct (then_records_inv _ _ _ _ Hin) as [-> | ->]; simpl in Hstate;
      [congruence|].
    unfold handler_task, try_catch, bind.
    cbn [owner job state executor resolve reject].
    change (state_of p (set_micro rest w')) with (state_of p w').
    change (result_of p (set_micro rest w')) with (result_of p w').
    rewrite Hrej. cbn [status_eqb negb].
    unfold err at 1. cbn [is_function typeof]. simpl String.eqb. cbn [negb].
    rewrite (proj2 (Hwrap _ _)). reflexivity.
Qed.

Lemma finally_without_callback_witness :
  run_next sample_host 2
    (then_store 0 (VFun (FFinallyOk VUndefined) []) (VFun (FFinallyErr VUndefined) [])
       (settled_world FULFILLED (VNum 5)))
  = Some (Normal VUndefined,
          _resolve 1 (VNum 5)
            (set_micro
               [Task 0 (Handler (VFun (FFinallyErr VUndefined) []) REJECTED
                          (VFun (FResolve 1) []) (VFun (FReject 1) []))]
               (then_store 0 (VFun (FFinallyOk VUndefined) [])
                  (VFun (FFinallyErr VUndefined) [])
                  (settled_world FULFILLED (VNum 5)))))
  ∧ state_of 1
      (_resolve 1 (VNum 5)
         (set_micro
            [Task 0 (Handler (VFun (FFinallyErr VUndefined) []) REJECTED
                       (VFun (FResolve 1) []) (VFun (FReject 1) []))]
            (then_store 0 (VFun (FFinallyOk VUndefined) [])
               (VFun (FFinallyErr VUndefined) [])
               (settled_world FULFILLED (VNum 5)))))
    = FULFILLED.
Proof.
  pose (ok := VFun (FFinallyOk VUndefined) []).
  pose (err := VFun (FFinallyErr VUndefined) []).
  pose (w0 := then_store 0 ok err (settled_world FULFILLED (VNum 5))).
  pose (h1 := Handler ok FULFILLED (VFun (FResolve 1) []) (VFun (FReject 1) [])).
  pose (h2 := Handler err REJECTED (VFun (FResolve 1) []) (VFun (FReject 1) [])).
  destruct (finally_without_callback sample_host 0 VUndefined
              (settled_world FULFILLED (VNum 5)) w0 h1 [Task 0 h2] 0
              sample_host_honest (settled_world_fresh FULFILLED (VNum 5) eq_refl))
    as [Hful _].
  - vm_compute. lia.
  - reflexivity.
  - apply waits_refl.
  - reflexivity.
  - apply elem_of_cons. by left.
  - reflexivity.
  - destruct Hful as (Hrun & Hstate & _); [reflexivity|reflexivity|].
    split; [exact Hrun | exact Hstate].
Defined.
